(** * The animal guessing game ([animal_guess.py])

    A shallow embedding of the game's decision tree, of its prompts and of
    the step that grows the tree after a wrong guess, together with the
    properties of the specification that concern them.

    - Text is modelled as ASCII: [string] of the standard library, with the
      [str] methods the program calls written out on it.
    - The nodes are Python objects with identity: they live in an object
      store ([heap]), a node's address is its index in the store, and the
      references between nodes ([parent], [positive], [negative]) are
      addresses.  The global [root_node] is a field of the [world].
    - The console is part of the [world]: the lines still to be read from
      standard input and the trace of what was printed and saved.
    - A function of the program is a computation [M A]: it takes a world and
      either returns a value with the next world or fails.  The failures of
      a run are the end of the input and a comparison that nests deeper than
      the interpreter allows; writing the file is taken to succeed. *)

From Stdlib Require Import String Ascii List Arith Lia Bool.
From stdpp Require Import base option list strings.

Set Default Proof Using "Type".

(** ** Text: the [str] methods the program uses *)

Definition newline : string := String "010" EmptyString.
Definition dquote : string := String "034" EmptyString.
Definition question_mark : ascii := "?"%char.

(** [str.isspace] on one ASCII character: tab, line feed, vertical tab,
    form feed, carriage return, the four separators 28..31 and the space. *)
Definition isspace (c : ascii) : bool :=
  let n := nat_of_ascii c in
  ((9 <=? n) && (n <=? 13)) || ((28 <=? n) && (n <=? 32)).

(** [str.isupper], [str.islower] and the case mappings on one ASCII
    character: the letters are A..Z and a..z.  The interpreter's [str] also
    knows the letters beyond ASCII, which these definitions leave as they
    are; what is said of the case of letters is said of ASCII lines
    ([ascii_text]). *)
Definition isupper (c : ascii) : bool :=
  let n := nat_of_ascii c in (65 <=? n) && (n <=? 90).

Definition islower (c : ascii) : bool :=
  let n := nat_of_ascii c in (97 <=? n) && (n <=? 122).

Definition to_lower (c : ascii) : ascii :=
  if isupper c then ascii_of_nat (nat_of_ascii c + 32) else c.

Definition to_upper (c : ascii) : ascii :=
  if islower c then ascii_of_nat (nat_of_ascii c - 32) else c.

(** [s.lower()] *)
Fixpoint lower (s : string) : string :=
  match s with
  | EmptyString => EmptyString
  | String c s' => String (to_lower c) (lower s')
  end.

(** [s.capitalize()]: the first character in upper case, the rest in lower
    case. *)
Definition capitalize (s : string) : string :=
  match s with
  | EmptyString => EmptyString
  | String c s' => String (to_upper c) (lower s')
  end.

(** [s.lstrip()], [s.rstrip()] and [s.strip()] *)
Fixpoint lstrip (s : string) : string :=
  match s with
  | EmptyString => EmptyString
  | String c s' => if isspace c then lstrip s' else s
  end.

Fixpoint rstrip (s : string) : string :=
  match s with
  | EmptyString => EmptyString
  | String c s' =>
      match rstrip s' with
      | EmptyString => if isspace c then EmptyString else String c EmptyString
      | r => String c r
      end
  end.

Definition strip (s : string) : string := rstrip (lstrip s).
Arguments strip : simpl never.

(** [s.startswith(prefix)] *)
Definition startswith (s prefix : string) : bool := String.prefix prefix s.
Arguments startswith : simpl never.

(** [s[-1]], when [s] is not empty. *)
Fixpoint last_char (s : string) : option ascii :=
  match s with
  | EmptyString => None
  | String c EmptyString => Some c
  | String _ s' => last_char s'
  end.

(** [s[:-1]] *)
Fixpoint drop_last (s : string) : string :=
  match s with
  | EmptyString => EmptyString
  | String _ EmptyString => EmptyString
  | String c s' => String c (drop_last s')
  end.

(** [not s] for a string: true on the empty string only. *)
Definition is_empty (s : string) : bool :=
  match s with EmptyString => true | _ => false end.

(** ** The nodes and the object store *)

(** The address of an object. *)
Abbreviation loc := nat.

(** The two dataclasses.  [parent] has type [Any] in the source and holds
    [None] or a node; [positive] and [negative] hold nodes. *)
Inductive node : Type :=
| Guess (parent : option loc) (animal_name : string)
| Question (parent : option loc) (question : string) (positive negative : loc).

Definition node_parent (n : node) : option loc :=
  match n with
  | Guess p _ => p
  | Question p _ _ _ => p
  end.

Definition with_parent (p : option loc) (n : node) : node :=
  match n with
  | Guess _ a => Guess p a
  | Question _ q x y => Question p q x y
  end.

(** The object store. *)
Abbreviation heap := (list node).

(** What the program does to the outside, in the order it does it. *)
Inductive event : Type :=
| Print (text : string)
| PrintColored (text color : string)
| Save (root : loc) (objects : list node).

Record world : Type := World {
  heap_of : heap;
  root_node : loc;
  stdin : list string;
  trace : list event
}.

(** ** Computations *)

(** [EOFError] is raised by [input()] at the end of the input and
    [RecursionError] by a comparison that nests too deep.  The other three do
    not belong to a Python run: a field read on the wrong kind of node, an
    address outside the store, and a loop of the model that ran out of
    fuel. *)
Inductive failure : Type :=
| EOFError
| RecursionError
| AttributeError
| Dangling
| OutOfFuel.

Inductive result (A : Type) : Type :=
| Ok (a : A)
| Raise (e : failure).
Arguments Ok {A} a.
Arguments Raise {A} e.

Definition M (A : Type) : Type := world → result (A * world).

#[global] Instance M_ret : MRet M := λ A a w, Ok (a, w).
#[global] Instance M_bind : MBind M := λ A B f m w,
  match m w with
  | Ok (a, w') => f a w'
  | Raise e => Raise e
  end.

Definition raise {A : Type} (e : failure) : M A := λ _, Raise e.

Definition emit (e : event) : M unit := λ w,
  Ok (tt, World (heap_of w) (root_node w) (stdin w) (trace w ++ [e])).

(** [print(text, end=end_)], [print(text)] and [print(colored(text, color))];
    the escape codes [colored] wraps the text in are kept as the colour's
    name. *)
Definition print_end (text end_ : string) : M unit := emit (Print (text +:+ end_)).
Definition print (text : string) : M unit := print_end text newline.
Definition print_colored (text color : string) : M unit := emit (PrintColored text color).

(** [input()]: the next line, without its end of line. *)
Definition input : M string := λ w,
  match stdin w with
  | [] => Raise EOFError
  | line :: rest => Ok (line, World (heap_of w) (root_node w) rest (trace w))
  end.

Definition get_heap : M heap := λ w, Ok (heap_of w, w).

Definition with_heap (h : heap) (w : world) : world :=
  World h (root_node w) (stdin w) (trace w).

Definition put_heap (h : heap) : M unit := λ w, Ok (tt, with_heap h w).

(** Object creation: the new object gets the next free address. *)
Definition alloc (n : node) : M loc :=
  h ← get_heap; _ ← put_heap (h ++ [n]); mret (length h).

Definition load (l : loc) : M node :=
  h ← get_heap;
  match h !! l with
  | Some n => mret n
  | None => raise Dangling
  end.

Definition store (l : loc) (n : node) : M unit :=
  h ← get_heap; put_heap (<[l := n]> h).

(** Attribute reads and writes. *)
Definition get_parent (l : loc) : M (option loc) :=
  n ← load l; mret (node_parent n).

Definition set_parent (l : loc) (p : option loc) : M unit :=
  n ← load l; store l (with_parent p n).

Definition get_animal_name (l : loc) : M string :=
  n ← load l;
  match n with
  | Guess _ a => mret a
  | Question _ _ _ _ => raise AttributeError
  end.

Definition set_positive (l v : loc) : M unit :=
  n ← load l;
  match n with
  | Question p q _ y => store l (Question p q v y)
  | Guess _ _ => raise AttributeError
  end.

Definition set_negative (l v : loc) : M unit :=
  n ← load l;
  match n with
  | Question p q x _ => store l (Question p q x v)
  | Guess _ _ => raise AttributeError
  end.

(** The global [root_node]. *)
Definition get_root : M loc := λ w, Ok (root_node w, w).

Definition set_root (l : loc) : M unit := λ w,
  Ok (tt, World (heap_of w) l (stdin w) (trace w)).

(** ** Equality of nodes: the [__eq__] that [@dataclass] generates

    [a == b] on two objects of the same dataclass compares the tuples of
    their fields; on objects of different classes both [__eq__] return
    [NotImplemented] and the comparison falls back on identity.  The tuple
    comparison goes through the fields from left to right, stops at the
    first pair that differs, and takes two fields that are the same object
    as equal without calling their [__eq__].  The fuel stands for the
    interpreter's recursion limit. *)

Definition recursion_limit : nat := 1000.

Fixpoint node_eq (fuel : nat) (h : heap) (a b : loc) : result bool :=
  match fuel with
  | 0 => Raise RecursionError
  | S fuel' =>
      let same (x y : loc) : result bool :=
        if decide (x = y) then Ok true else node_eq fuel' h x y in
      let same_parent (p q : option loc) : result bool :=
        match p, q with
        | None, None => Ok true
        | Some x, Some y => same x y
        | _, _ => Ok false
        end in
      let and_then (r : result bool) (k : result bool) : result bool :=
        match r with
        | Ok true => k
        | other => other
        end in
      match h !! a, h !! b with
      | Some (Guess pa na), Some (Guess pb nb) =>
          and_then (same_parent pa pb) (Ok (bool_decide (na = nb)))
      | Some (Question pa qa xa ya), Some (Question pb qb xb yb) =>
          and_then (same_parent pa pb)
            (and_then (Ok (bool_decide (qa = qb)))
               (and_then (same xa xb) (same ya yb)))
      | Some _, Some _ => Ok false
      | _, _ => Raise Dangling
      end
  end.

Arguments node_eq : simpl never.

Definition py_eq (a b : loc) : M bool := λ w,
  match node_eq recursion_limit (heap_of w) a b with
  | Ok r => Ok (r, w)
  | Raise e => Raise e
  end.

(** ** The prompts *)

(** The loops of the program are run on fuel.  A loop that reads a line at
    every turn gets one unit more than there are lines left to read. *)
Definition with_fuel {A : Type} (body : nat → M A) : M A := λ w,
  body (S (length (stdin w))) w.

(** [get_yes_or_no(question)].  Every turn of the loop reads one line, so
    one more unit of fuel than there are lines left is never used up
    ([get_yes_or_no_loop_fuel]). *)
Fixpoint get_yes_or_no_loop (fuel : nat) (question : string) : M bool :=
  match fuel with
  | 0 => raise OutOfFuel
  | S fuel' =>
      _ ← print_end (question +:+ " ") EmptyString;
      line ← input;
      let answer := lower (strip line) in
      if startswith "yes" answer then mret true
      else if startswith "no" answer then mret false
      else
        _ ← print ("Please answer " +:+ dquote +:+ "Yes" +:+ dquote
                   +:+ " or " +:+ dquote +:+ "No" +:+ dquote +:+ ".");
        get_yes_or_no_loop fuel' question
  end.

Definition get_yes_or_no (question : string) : M bool :=
  with_fuel (λ fuel, get_yes_or_no_loop fuel question).

(** [get_question(old_animal_name, new_animal_name)] *)
Fixpoint get_question_loop (fuel : nat) (old_animal_name new_animal_name : string)
  : M string :=
  match fuel with
  | 0 => raise OutOfFuel
  | S fuel' =>
      _ ← print_end ("What statement would be TRUE for " +:+ dquote
                     +:+ new_animal_name +:+ dquote +:+ " but NOT TRUE for "
                     +:+ dquote +:+ old_animal_name +:+ dquote +:+ "? ")
                    EmptyString;
      line ← input;
      let question := strip line in
      if is_empty question then
        get_question_loop fuel' old_animal_name new_animal_name
      else
        let question := capitalize (lower question) in
        let question :=
          if bool_decide (last_char question = Some question_mark)
          then drop_last question else question in
        _ ← print EmptyString;
        _ ← print ("So if I asked you " +:+ dquote +:+ question +:+ "?" +:+ dquote
                   +:+ ", your answer would be true for " +:+ dquote
                   +:+ new_animal_name +:+ dquote +:+ ", but false for "
                   +:+ dquote +:+ old_animal_name +:+ dquote +:+ ".");
        yes ← get_yes_or_no "Is that right?";
        if (yes : bool) then mret question
        else get_question_loop fuel' old_animal_name new_animal_name
  end.

Definition get_question (old_animal_name new_animal_name : string) : M string :=
  _ ← print EmptyString;
  _ ← print ("I need to know how to tell the difference between " +:+ dquote
             +:+ new_animal_name +:+ dquote +:+ " and " +:+ dquote
             +:+ old_animal_name +:+ dquote +:+ ".");
  with_fuel (λ fuel, get_question_loop fuel old_animal_name new_animal_name).

(** [get_new_animal_name()] *)
Fixpoint get_new_animal_name_loop (fuel : nat) : M string :=
  match fuel with
  | 0 => raise OutOfFuel
  | S fuel' =>
      _ ← print_end "What animal were you thinking of? " EmptyString;
      line ← input;
      let animal_name := lower (strip line) in
      if is_empty animal_name then get_new_animal_name_loop fuel'
      else
        yes ← get_yes_or_no ("Your animal was " +:+ dquote +:+ animal_name
                             +:+ dquote +:+ "?");
        if (yes : bool) then mret animal_name
        else get_new_animal_name_loop fuel'
  end.

Definition get_new_animal_name : M string :=
  with_fuel get_new_animal_name_loop.

(** ** Growing the tree *)

(** [Guess(parent=..., animal_name=...)] and [Question(parent=...,
    question=..., positive=..., negative=...)]: the constructors that
    [@dataclass] generates store their arguments. *)
Definition new_Guess (parent : option loc) (animal_name : string) : M loc :=
  alloc (Guess parent animal_name).

Definition new_Question (parent : option loc) (question : string)
    (positive negative : loc) : M loc :=
  alloc (Question parent question positive negative).

(** [add_new_question(old_guess)] *)
Definition add_new_question (old_guess : loc) : M (loc * loc) :=
  old_animal_name ← get_animal_name old_guess;
  _ ← print EmptyString;
  _ ← print_colored ("Ok, so it's not a " +:+ old_animal_name +:+ ". I give up.") "red";
  _ ← print EmptyString;
  new_animal_name ← get_new_animal_name;
  question ← get_question old_animal_name new_animal_name;
  new_guess ← new_Guess None new_animal_name;
  new_question ← new_Question None question new_guess old_guess;
  old_parent ← get_parent old_guess;
  _ ← match old_parent with
      | Some parent =>
          p ← load parent;
          match p with
          | Question _ _ parent_positive parent_negative =>
              is_negative ← py_eq parent_negative old_guess;
              if (is_negative : bool) then set_negative parent new_question
              else
                is_positive ← py_eq parent_positive old_guess;
                if (is_positive : bool) then set_positive parent new_question
                else mret tt
          | Guess _ _ => mret tt
          end
      | None => mret tt
      end;
  _ ← set_parent new_guess (Some new_question);
  _ ← set_parent old_guess (Some new_question);
  mret (new_question, new_guess).

(** [save_data()]: the pickle of [root_node] holds every object that can be
    reached from it; the event keeps the root and the store.  The write is
    taken to succeed.  The interpreter's pickler nests as deep as the tree
    and gives up with [RecursionError] on a tree some hundreds of questions
    deep, with the file already emptied: on such a tree the round does not
    return, so nothing that is proved of a round that returns concerns
    it. *)
Definition save_data : M unit :=
  root ← get_root;
  h ← get_heap;
  emit (Save root h).

(** [do_guess(guess)] *)
Definition do_guess (guess : loc) : M unit :=
  animal_name ← get_animal_name guess;
  yes ← get_yes_or_no ("Is your animal a " +:+ animal_name +:+ "?");
  if (yes : bool) then
    _ ← print EmptyString;
    print_colored "Yay! I guessed right!" "green"
  else
    parent ← get_parent guess;
    let is_root := bool_decide (parent = (None : option loc)) in
    '(new_question, new_guess) ← add_new_question guess;
    _ ← (if is_root then set_root new_question else mret tt);
    save_data.

(** ** Playing *)

(** [do_question(question)] *)
Definition do_question (question : loc) : M loc :=
  n ← load question;
  match n with
  | Question _ text positive negative =>
      yes ← get_yes_or_no (text +:+ "?");
      if (yes : bool) then mret positive else mret negative
  | Guess _ _ => raise AttributeError
  end.

(** [play(node)].  Every question answered reads at least one line, so the
    recursion is no deeper than one more than the number of lines left
    ([play_rec_fuel]).  An address that holds no node stands for an
    argument that is neither kind of node. *)
Fixpoint play_rec (fuel : nat) (node : loc) : M unit :=
  match fuel with
  | 0 => raise OutOfFuel
  | S fuel' =>
      h ← get_heap;
      match h !! node with
      | Some (Guess _ _) => do_guess node
      | Some (Question _ _ _ _) =>
          next ← do_question node;
          play_rec fuel' next
      | None => print "Don't know how to deal with node!"
      end
  end.

Definition play (node : loc) : M unit :=
  with_fuel (λ fuel, play_rec fuel node).

(** [load_data()]: the pickled tree when the file is there, a single guess
    otherwise. *)
Definition load_data (file : option (loc * heap)) : loc * heap :=
  match file with
  | Some saved => saved
  | None => (0, [Guess None "dog"])
  end.

(** The module's top level, from the [print] calls on: [root_node] has been
    loaded into the world by [boot]. *)
Definition main : M unit :=
  _ ← print EmptyString;
  _ ← print "------------------------------------------------------";
  _ ← print "Think of an animal, and I'll try and guess what it is.";
  root ← get_root;
  play root.

Definition boot (file : option (loc * heap)) (lines : list string) : world :=
  let '(root, h) := load_data file in World h root lines [].

(** ** Observations on a world *)

Definition saves (w : world) : list (loc * heap) :=
  omap (λ e, match e with Save r h => Some (r, h) | _ => None end) (trace w).

(** ** What the prompts make of the input *)

(** What the line [line] is taken for by [get_yes_or_no]: an answer, or
    nothing when the prompt is repeated. *)
Definition reads_as (line : string) : option bool :=
  let answer := lower (strip line) in
  if startswith "yes" answer then Some true
  else if startswith "no" answer then Some false
  else None.

(** The text [get_question] makes of an accepted line. *)
Definition question_text (line : string) : string :=
  let question := capitalize (lower (strip line)) in
  if bool_decide (last_char question = Some question_mark)
  then drop_last question else question.

(** [confirmed line ls ls']: somewhere in the lines [ls] the user gives
    [line] and then says yes to it, after lines that read as no answer; [ls']
    are the lines left after the yes. *)
Inductive confirmed (line : string) : list string → list string → Prop :=
| confirmed_here (before junk : list string) (yes : string) (rest : list string) :
    Forall (λ l, reads_as l = None) junk →
    reads_as yes = Some true →
    confirmed line (before ++ line :: junk ++ yes :: rest) rest.

(** ** Runs *)

(** A run that returns, or that stops where the input ends. *)
Definition returns_or_eof {A : Type} (r : result (A * world)) : Prop :=
  match r with
  | Ok _ => True
  | Raise e => e = EOFError
  end.

(** A run that does not stop for want of fuel. *)
Definition in_time {A : Type} (r : result A) : Prop := r ≠ Raise OutOfFuel.

(** [quiet w w']: from [w] to [w'] the program has only talked: the store
    and the root are the same, nothing was saved, and the lines left are
    an end of the lines there were. *)
Record quiet (w w' : world) : Prop := Quiet {
  quiet_heap : heap_of w' = heap_of w;
  quiet_root : root_node w' = root_node w;
  quiet_saves : saves w' = saves w;
  quiet_stdin : stdin w' `suffix_of` stdin w
}.

(** Where lines 155-160 of [add_new_question] leave the store [h], for the
    old guess [g] with parent reference [pg] and the new question [nq]. *)
Inductive rewired (h : heap) (g nq : loc) : option loc → heap → Prop :=
| rewired_root :
    rewired h g nq None h
| rewired_not_question (p : loc) (pp : option loc) (a : string) :
    h !! p = Some (Guess pp a) →
    rewired h g nq (Some p) h
| rewired_negative (p : loc) (pp : option loc) (q : string) (x y : loc) :
    h !! p = Some (Question pp q x y) →
    node_eq recursion_limit h y g = Ok true →
    rewired h g nq (Some p) (<[p := Question pp q x nq]> h)
| rewired_positive (p : loc) (pp : option loc) (q : string) (x y : loc) :
    h !! p = Some (Question pp q x y) →
    node_eq recursion_limit h y g = Ok false →
    node_eq recursion_limit h x g = Ok true →
    rewired h g nq (Some p) (<[p := Question pp q nq y]> h)
| rewired_neither (p : loc) (pp : option loc) (q : string) (x y : loc) :
    h !! p = Some (Question pp q x y) →
    node_eq recursion_limit h y g = Ok false →
    node_eq recursion_limit h x g = Ok false →
    rewired h g nq (Some p) h.

(** ** The tree in the store *)

(** The path of a round: from [node], the positive child on a yes and the
    negative child on a no, one answer for each question, down to a guess.
    The result is the list of the questions passed and the guess reached;
    there is none when the answers run out before a guess or are left over
    after it. *)
Fixpoint follow (h : heap) (node : loc) (answers : list bool)
  : option (list loc * loc) :=
  match h !! node with
  | Some (Guess _ _) =>
      match answers with
      | [] => Some ([], node)
      | _ :: _ => None
      end
  | Some (Question _ _ positive negative) =>
      match answers with
      | [] => None
      | yes :: answers' =>
          match follow h (if yes then positive else negative) answers' with
          | Some (path, guess) => Some (node :: path, guess)
          | None => None
          end
      end
  | None => None
  end.

(** What is printed when the questions of [path] are asked in turn. *)
Definition asked (h : heap) (path : list loc) : list event :=
  omap (λ l, match h !! l with
             | Some (Question _ text _ _) => Some (Print ((text +:+ "?") +:+ " "))
             | _ => None
             end) path.

(** The nodes of the tree below [l], [l] first, along the forward
    references. *)
Fixpoint nodes_below (fuel : nat) (h : heap) (l : loc) : option (list loc) :=
  match fuel with
  | 0 => None
  | S fuel' =>
      match h !! l with
      | Some (Guess _ _) => Some [l]
      | Some (Question _ _ positive negative) =>
          match nodes_below fuel' h positive, nodes_below fuel' h negative with
          | Some ps, Some ns => Some (l :: ps ++ ns)
          | _, _ => None
          end
      | None => None
      end
  end.

Definition parent_at (h : heap) (l : loc) : option (option loc) :=
  node_parent <$> h !! l.

(** The parent reference of both children of a question is the question. *)
Definition children_point_back (h : heap) (l : loc) : bool :=
  match h !! l with
  | Some (Question _ _ positive negative) =>
      bool_decide (parent_at h positive = Some (Some l))
      && bool_decide (parent_at h negative = Some (Some l))
  | _ => true
  end.

Definition text_present (h : heap) (l : loc) : bool :=
  match h !! l with
  | Some (Guess _ animal_name) => negb (is_empty animal_name)
  | Some (Question _ question _ _) => negb (is_empty question)
  | None => false
  end.

(** The invariants of the data model, for the tree at [root]: the root has
    no parent; the forward references from the root form a finite tree in
    which no node occurs twice; every question is the parent of its two
    children; no name and no question text is empty. *)
Definition well_formed (h : heap) (root : loc) : bool :=
  bool_decide (parent_at h root = Some None)
  && match nodes_below (length h) h root with
     | Some nodes =>
         bool_decide (NoDup nodes)
         && forallb (children_point_back h) nodes
         && forallb (text_present h) nodes
     | None => false
     end.

(** The parent reference of [g], when there is one, is an object of the
    store.  A reference of a Python run always leads to an object, so this
    says of the store no more than that it can be the store of a run. *)
Definition parent_known (h : heap) (g : loc) : bool :=
  match h !! g with
  | Some n =>
      match node_parent n with
      | Some p => bool_decide (p < length h)
      | None => true
      end
  | None => true
  end.

(** ** The text of a question, in the words of the specification *)

(** Only the first character in upper case. *)
Definition upper_first (s : string) : string :=
  match s with
  | EmptyString => EmptyString
  | String c s' => String (to_upper c) s'
  end.

(** At most one question mark taken from the end. *)
Definition without_one_mark (s : string) : string :=
  match last_char s with
  | Some c => if Ascii.eqb c question_mark then drop_last s else s
  | None => s
  end.

(** The trimmed line, every character in lower case, then the first one in
    upper case, then without one question mark at the end. *)
Definition stored_text (line : string) : string :=
  without_one_mark (upper_first (lower (strip line))).

(** A text that is not a question mark alone and has no white space just
    before a question mark at its end. *)
Definition clean_ending (t : string) : bool :=
  match last_char t with
  | Some c =>
      if Ascii.eqb c question_mark then
        match last_char (drop_last t) with
        | Some d => negb (isspace d)
        | None => false
        end
      else true
  | None => false
  end.

(** A text that ends in two question marks or more. *)
Definition ends_in_two_marks (t : string) : bool :=
  match last_char t, last_char (drop_last t) with
  | Some c, Some d => Ascii.eqb c question_mark && Ascii.eqb d question_mark
  | _, _ => false
  end.

(** A text of ASCII characters only. *)
Fixpoint ascii_text (s : string) : bool :=
  match s with
  | EmptyString => true
  | String c s' => (nat_of_ascii c <? 128) && ascii_text s'
  end.

Definition first_char (s : string) : option ascii :=
  match s with
  | EmptyString => None
  | String c _ => Some c
  end.

(** A text with no white space at either end. *)
Definition trimmed (s : string) : Prop :=
  (∀ c, first_char s = Some c → isspace c = false) ∧
  (∀ c, last_char s = Some c → isspace c = false).

(** ** Listing the tree *)

(** [" " * n] *)
Fixpoint spaces (n : nat) : string :=
  match n with
  | 0 => EmptyString
  | S n' => String " " (spaces n')
  end.

(** [dump_nodes(node, prefix, depth)].  The recursion is as deep as the tree
    below [node]; the fuel stands for the interpreter's recursion limit (the
    interpreter counts the frames already in use as well, so its room is a
    little less).  An argument that is neither kind of node is passed over in
    silence. *)
Fixpoint dump_nodes_rec (fuel : nat) (node : loc) (prefix : string) (depth : nat)
  : M unit :=
  match fuel with
  | 0 => raise RecursionError
  | S fuel' =>
      let indent := spaces (depth * 2) +:+ prefix in
      h ← get_heap;
      match h !! node with
      | Some (Guess _ animal_name) =>
          print (indent +:+ "Guess(animal_name=" +:+ animal_name +:+ ")")
      | Some (Question _ question positive negative) =>
          _ ← print (indent +:+ "Question(question=" +:+ question +:+ ")");
          _ ← dump_nodes_rec fuel' positive "Positive" (depth + 1);
          dump_nodes_rec fuel' negative "Negative" (depth + 1)
      | None => mret tt
      end
  end.

Definition dump_nodes (node : loc) (prefix : string) (depth : nat) : M unit :=
  dump_nodes_rec recursion_limit node prefix depth.

(** What a line of the listing says of the node at [l]. *)
Definition node_label (h : heap) (l : loc) : string :=
  match h !! l with
  | Some (Guess _ animal_name) => "Guess(animal_name=" +:+ animal_name +:+ ")"
  | Some (Question _ question _ _) => "Question(question=" +:+ question +:+ ")"
  | None => EmptyString
  end.

(** ** More on the prompts and on the lesson *)

(** What [get_yes_or_no] prints for the lines [junk] it does not take for an
    answer: the question and the request, once for each. *)
Definition reprompts (question : string) (junk : list string) : list event :=
  flat_map (λ _ : string,
    [Print (question +:+ " ");
     Print (("Please answer " +:+ dquote +:+ "Yes" +:+ dquote
             +:+ " or " +:+ dquote +:+ "No" +:+ dquote +:+ ".") +:+ newline)])
    junk.

(** Two guesses of one name. *)
Definition same_name (h : heap) (a b : loc) : bool :=
  match h !! a, h !! b with
  | Some (Guess _ na), Some (Guess _ nb) => bool_decide (na = nb)
  | _, _ => false
  end.

(** The guess [g] at the end of [path] is reached on a yes while the negative
    child of the last question is a guess of the same name. *)
Definition hidden_by_twin (h : heap) (path : list loc) (answers : list bool)
    (g : loc) : bool :=
  match last path, last answers with
  | Some p, Some true =>
      match h !! p with
      | Some (Question _ _ _ negative) => same_name h negative g
      | _ => false
      end
  | _, _ => false
  end.

(** The parent reference of [g], when there is one, is an object of the
    store, and if that object is a question, its two children have it as
    their parent. *)
Definition parent_consistent (h : heap) (g : loc) : bool :=
  match h !! g with
  | Some n =>
      match node_parent n with
      | Some p => bool_decide (p < length h) && children_point_back h p
      | None => true
      end
  | None => false
  end.

(** ** The lines a dialogue settles on *)

(** The answer the lines hold for a yes/no prompt: what the first line that
    reads as an answer reads as, and the lines after that line. *)
Fixpoint answer_in (lines : list string) : option (bool * list string) :=
  match lines with
  | [] => None
  | line :: rest =>
      match reads_as line with
      | Some yes => Some (yes, rest)
      | None => answer_in rest
      end
  end.

(** The line a free-text prompt settles on, and the lines after the
    dialogue: a line that does not pass [given] is passed over; for a line
    that does, the user is asked, and on a no the prompt starts again with
    the lines after that no.  Every turn takes a line, so as many units of
    fuel as there are lines are enough. *)
Fixpoint confirmed_line (fuel : nat) (given : string → bool) (lines : list string)
  : option (string * list string) :=
  match fuel, lines with
  | S fuel', line :: rest =>
      if given line then
        match answer_in rest with
        | Some (true, rest') => Some (line, rest')
        | Some (false, rest') => confirmed_line fuel' given rest'
        | None => None
        end
      else confirmed_line fuel' given rest
  | _, _ => None
  end.

(** The lines [get_new_animal_name] and [get_question] do not pass over. *)
Definition names_animal (line : string) : bool :=
  negb (is_empty (lower (strip line))).

Definition states_difference (line : string) : bool :=
  negb (is_empty (strip line)).

Definition confirmed_name (lines : list string) : option (string * list string) :=
  confirmed_line (length lines) names_animal lines.

Definition confirmed_question (lines : list string) : option (string * list string) :=
  confirmed_line (length lines) states_difference lines.

(** The guess the lines lead to from [node], and the lines left for it: at
    every question the answer the lines hold picks the child. *)
Fixpoint reaches (fuel : nat) (h : heap) (node : loc) (lines : list string)
  : option (loc * list string) :=
  match fuel with
  | 0 => None
  | S fuel' =>
      match h !! node with
      | Some (Guess _ _) => Some (node, lines)
      | Some (Question _ _ positive negative) =>
          match answer_in lines with
          | Some (yes, rest) =>
              reaches fuel' h (if yes : bool then positive else negative) rest
          | None => None
          end
      | None => None
      end
  end.

(** ** Example trees *)

(** The tree after the first lesson: "Does it meow?", yes a cat, no a dog. *)
Definition cat_dog : heap :=
  [Guess (Some 2) "dog"; Guess (Some 2) "cat"; Question None "Does it meow" 1 0].

(** A tree of three animals: "Does it meow?", no a dog, yes "Is it big?",
    yes a lion, no a cat. *)
Definition zoo : heap :=
  [Guess (Some 2) "dog"; Guess (Some 4) "cat"; Question None "Does it meow" 4 0;
   Guess (Some 4) "lion"; Question (Some 2) "Is it big" 3 1].

(** The tree after a first lesson in which the animal taught is named like
    the animal guessed. *)
Definition dog_dog : heap :=
  [Guess (Some 2) "dog"; Guess (Some 2) "dog"; Question None "Is it big" 1 0].

(** The lines of a lesson in which the user is asked twice for the animal
    and twice for the question, with lines the prompts pass over. *)
Definition second_try : list string :=
  ["  "; " Horse"; "what?"; "no"; " COW  "; "y";
   ""; "is it big"; "hm"; "n"; "  does IT Moo??"; "y"; "rest"].

(** * Reasoning about computations *)

Lemma append_empty_r (s : string) : s +:+ EmptyString = s.
Proof.
  induction s as [|c s IH]; [done|].
  change (String c (s +:+ EmptyString) = String c s). by rewrite IH.
Qed.

Lemma bind_Ok {A B : Type} (m : M A) (f : A → M B) (w : world) (r : B * world) :
  (m ≫= f) w = Ok r ↔ ∃ a w', m w = Ok (a, w') ∧ f a w' = Ok r.
Proof.
  unfold mbind, M_bind. destruct (m w) as [[a w']|e]; split.
  - intros H. by exists a, w'.
  - intros (a0 & w0 & Hm & Hf). by simplify_eq.
  - intros H. discriminate.
  - intros (a0 & w0 & Hm & Hf). discriminate.
Qed.

Lemma bind_eq {A B : Type} (m : M A) (f : A → M B) (w w' : world) (a : A) :
  m w = Ok (a, w') → (m ≫= f) w = f a w'.
Proof. unfold mbind, M_bind. by intros ->. Qed.

Lemma quiet_refl (w : world) : quiet w w.
Proof. by split. Qed.

Lemma quiet_trans (w1 w2 w3 : world) : quiet w1 w2 → quiet w2 w3 → quiet w1 w3.
Proof.
  intros [Hh Hr Hs Hi] [Hh' Hr' Hs' Hi']. split.
  - congruence.
  - congruence.
  - congruence.
  - by etrans.
Qed.

Lemma saves_snoc_print (h : heap) (r : loc) (ls : list string) (tr : list event)
    (t : string) :
  saves (World h r ls (tr ++ [Print t])) = saves (World h r ls tr).
Proof. unfold saves. cbn. rewrite omap_app. cbn. by rewrite app_nil_r. Qed.

Lemma saves_snoc_colored (h : heap) (r : loc) (ls : list string) (tr : list event)
    (t c : string) :
  saves (World h r ls (tr ++ [PrintColored t c])) = saves (World h r ls tr).
Proof. unfold saves. cbn. rewrite omap_app. cbn. by rewrite app_nil_r. Qed.

Lemma print_end_said (t e : string) (w w' : world) (u : unit) :
  print_end t e w = Ok (u, w') → quiet w w' ∧ stdin w' = stdin w.
Proof.
  unfold print_end, emit. intros [= <- <-]. destruct w as [h r ls tr].
  split; [|done]. split; [done | done | apply saves_snoc_print | done].
Qed.

Lemma print_said (t : string) (w w' : world) (u : unit) :
  print t w = Ok (u, w') → quiet w w' ∧ stdin w' = stdin w.
Proof. apply print_end_said. Qed.

Lemma print_colored_said (t c : string) (w w' : world) (u : unit) :
  print_colored t c w = Ok (u, w') → quiet w w' ∧ stdin w' = stdin w.
Proof.
  unfold print_colored, emit. intros [= <- <-]. destruct w as [h r ls tr].
  split; [|done]. split; [done | done | apply saves_snoc_colored | done].
Qed.

Lemma input_quiet (line : string) (w w' : world) :
  input w = Ok (line, w') → quiet w w' ∧ stdin w = line :: stdin w'.
Proof.
  unfold input. destruct w as [h r ls tr]; cbn.
  destruct ls as [|l ls]; [discriminate|]. intros [= <- <-]. cbn.
  split; [|done]. split; cbn; try done. by exists [l].
Qed.

(** * Text *)

Lemma to_lower_idem (c : ascii) : to_lower (to_lower c) = to_lower c.
Proof. destruct c as [[] [] [] [] [] [] [] []]; vm_compute; reflexivity. Qed.

Lemma isupper_to_lower (c : ascii) : isupper (to_lower c) = false.
Proof. destruct c as [[] [] [] [] [] [] [] []]; vm_compute; reflexivity. Qed.

Lemma isspace_to_lower (c : ascii) : isspace (to_lower c) = isspace c.
Proof. destruct c as [[] [] [] [] [] [] [] []]; vm_compute; reflexivity. Qed.

Lemma isspace_to_upper (c : ascii) : isspace (to_upper c) = isspace c.
Proof. destruct c as [[] [] [] [] [] [] [] []]; vm_compute; reflexivity. Qed.

Lemma mark_to_lower (c : ascii) :
  Ascii.eqb (to_lower c) question_mark = Ascii.eqb c question_mark.
Proof. destruct c as [[] [] [] [] [] [] [] []]; vm_compute; reflexivity. Qed.

Lemma mark_to_upper (c : ascii) :
  Ascii.eqb (to_upper c) question_mark = Ascii.eqb c question_mark.
Proof. destruct c as [[] [] [] [] [] [] [] []]; vm_compute; reflexivity. Qed.

Lemma lower_idem (s : string) : lower (lower s) = lower s.
Proof.
  induction s as [|c s IH]; [done|]. cbn [lower]. by rewrite to_lower_idem, IH.
Qed.

Lemma capitalize_lower (s : string) : capitalize (lower s) = upper_first (lower s).
Proof. destruct s as [|c s]; [done|]. cbn. by rewrite lower_idem. Qed.

Lemma is_empty_true (s : string) : is_empty s = true ↔ s = EmptyString.
Proof. by destruct s. Qed.

Lemma get_lower (i : nat) (s : string) :
  String.get i (lower s) = to_lower <$> String.get i s.
Proof.
  revert i. induction s as [|c s IH]; intros i; [done|].
  destruct i as [|i]; [done|]. cbn. apply IH.
Qed.

Lemma get_drop_last (i : nat) (s : string) (c : ascii) :
  String.get i (drop_last s) = Some c → String.get i s = Some c.
Proof.
  revert i. induction s as [|a s IH]; intros i; [done|].
  destruct s as [|b s]; [done|].
  destruct i as [|i]; [done|]. intros H. apply (IH i H).
Qed.

Lemma last_char_lower (s : string) :
  last_char (lower s) = to_lower <$> last_char s.
Proof.
  induction s as [|a s IH]; [done|]. destruct s as [|b s]; [done|]. exact IH.
Qed.

Lemma drop_last_lower (s : string) : drop_last (lower s) = lower (drop_last s).
Proof.
  induction s as [|a s IH]; [done|]. destruct s as [|b s]; [done|].
  change (String (to_lower a) (drop_last (lower (String b s)))
          = String (to_lower a) (lower (drop_last (String b s)))).
  by rewrite IH.
Qed.

Lemma last_char_None (s : string) : last_char s = None ↔ s = EmptyString.
Proof.
  split; [|by intros ->]. induction s as [|a s IH]; [done|].
  destruct s as [|b s]; [done|]. intros H. by apply IH in H.
Qed.

(** The text the program computes is the text the specification words. *)
Lemma question_text_stored_text (line : string) :
  question_text line = stored_text line.
Proof.
  unfold question_text, stored_text, without_one_mark.
  rewrite capitalize_lower.
  destruct (last_char (upper_first (lower (strip line)))) as [c|]; [|done].
  destruct (Ascii.eqb_spec c question_mark) as [->|Hne].
  - by rewrite bool_decide_eq_true_2.
  - rewrite bool_decide_eq_false_2; [done|]. congruence.
Qed.

(** Behind the first character the stored text is the trimmed line in lower
    case. *)
Lemma stored_text_tail (line : string) (i : nat) (c : ascii) :
  String.get (S i) (stored_text line) = Some c →
  ∃ c0, String.get (S i) (strip line) = Some c0 ∧ c = to_lower c0.
Proof.
  unfold stored_text, without_one_mark. intros H.
  assert (H' : String.get (S i) (upper_first (lower (strip line))) = Some c).
  { destruct (last_char _) as [d|]; [|done].
    destruct (Ascii.eqb d question_mark); [|done]. by apply get_drop_last. }
  clear H. destruct (strip line) as [|a t]; [done|].
  cbn in H'. rewrite get_lower in H'. cbn.
  destruct (String.get i t) as [c0|]; [|done].
  injection H' as <-. by exists c0.
Qed.

(** *** [strip] *)

Lemma lstrip_first (s : string) (c : ascii) :
  first_char (lstrip s) = Some c → isspace c = false.
Proof.
  induction s as [|a s IH]; [done|]. cbn [lstrip].
  destruct (isspace a) eqn:Ha; [done|]. by intros [= <-].
Qed.

Lemma rstrip_last (s : string) (c : ascii) :
  last_char (rstrip s) = Some c → isspace c = false.
Proof.
  induction s as [|a s IH]; [done|]. cbn [rstrip].
  destruct (rstrip s) as [|b r].
  - destruct (isspace a) eqn:Ha; [done|]. by intros [= <-].
  - exact IH.
Qed.

Lemma rstrip_first (s : string) (c : ascii) :
  first_char (rstrip s) = Some c → first_char s = Some c.
Proof.
  destruct s as [|a s]; [done|]. cbn [rstrip].
  destruct (rstrip s) as [|b r]; [|done]. by destruct (isspace a).
Qed.

Lemma strip_trimmed (line : string) : trimmed (strip line).
Proof.
  unfold strip. split.
  - intros c H. apply rstrip_first in H. by apply lstrip_first in H.
  - apply rstrip_last.
Qed.

Lemma rstrip_id (s : string) :
  (∀ c, last_char s = Some c → isspace c = false) → rstrip s = s.
Proof.
  induction s as [|a s IH]; [done|]. intros H. cbn [rstrip].
  destruct s as [|b s].
  - cbn. by rewrite (H a).
  - rewrite IH; [done|]. exact H.
Qed.

Lemma trimmed_strip (s : string) : trimmed s → strip s = s.
Proof.
  intros [Hf Hl]. unfold strip.
  assert (Hls : lstrip s = s).
  { destruct s as [|a s]; [done|]. cbn. by rewrite (Hf a). }
  rewrite Hls. by apply rstrip_id.
Qed.

(** *** ASCII text *)

Lemma to_lower_ascii (c : ascii) :
  (nat_of_ascii c <? 128) = true → (nat_of_ascii (to_lower c) <? 128) = true.
Proof. destruct c as [[] [] [] [] [] [] [] []]; vm_compute; intros H; exact H. Qed.

Lemma to_upper_ascii (c : ascii) :
  (nat_of_ascii c <? 128) = true → (nat_of_ascii (to_upper c) <? 128) = true.
Proof. destruct c as [[] [] [] [] [] [] [] []]; vm_compute; intros H; exact H. Qed.

Lemma ascii_text_cons (c : ascii) (s : string) :
  ascii_text (String c s) = true
  ↔ (nat_of_ascii c <? 128) = true ∧ ascii_text s = true.
Proof. cbn [ascii_text]. apply andb_true_iff. Qed.

Lemma ascii_text_lower (s : string) :
  ascii_text s = true → ascii_text (lower s) = true.
Proof.
  induction s as [|c s IH]; [done|]. cbn [lower]. rewrite !ascii_text_cons.
  intros [Hc Hs]. split; [by apply to_lower_ascii | by apply IH].
Qed.

Lemma ascii_text_capitalize (s : string) :
  ascii_text s = true → ascii_text (capitalize s) = true.
Proof.
  destruct s as [|c s]; [done|]. cbn [capitalize]. rewrite !ascii_text_cons.
  intros [Hc Hs]. split; [by apply to_upper_ascii | by apply ascii_text_lower].
Qed.

Lemma ascii_text_lstrip (s : string) :
  ascii_text s = true → ascii_text (lstrip s) = true.
Proof.
  induction s as [|c s IH]; [done|]. cbn [lstrip].
  destruct (isspace c); [|done]. rewrite ascii_text_cons. intros [_ Hs]. by apply IH.
Qed.

Lemma ascii_text_rstrip (s : string) :
  ascii_text s = true → ascii_text (rstrip s) = true.
Proof.
  induction s as [|c s IH]; [done|]. rewrite ascii_text_cons. intros [Hc Hs].
  apply IH in Hs. cbn [rstrip]. destruct (rstrip s) as [|b r].
  - destruct (isspace c); [done|]. by apply ascii_text_cons.
  - by apply ascii_text_cons.
Qed.

Lemma ascii_text_strip (s : string) :
  ascii_text s = true → ascii_text (strip s) = true.
Proof. intros H. unfold strip. by apply ascii_text_rstrip, ascii_text_lstrip. Qed.

Lemma ascii_text_drop_last (s : string) :
  ascii_text s = true → ascii_text (drop_last s) = true.
Proof.
  induction s as [|c s IH]; [done|]. rewrite ascii_text_cons. intros [Hc Hs].
  destruct s as [|b r]; [done|].
  change (drop_last (String c (String b r)))
    with (String c (drop_last (String b r))).
  apply ascii_text_cons. split; [done|by apply IH].
Qed.

Lemma ascii_text_question_text (line : string) :
  ascii_text line = true → ascii_text (question_text line) = true.
Proof.
  intros H. unfold question_text.
  assert (Ht : ascii_text (capitalize (lower (strip line))) = true).
  { by apply ascii_text_capitalize, ascii_text_lower, ascii_text_strip. }
  destruct (bool_decide _); [by apply ascii_text_drop_last|done].
Qed.

(** *** The ends of a text under [lower], [capitalize] and [s[:-1]] *)

Lemma first_char_capitalize_lower (s : string) :
  first_char (capitalize (lower s)) = (λ c, to_upper (to_lower c)) <$> first_char s.
Proof. by destruct s. Qed.

Lemma last_char_capitalize_lower (s : string) (c' : ascii) :
  last_char (capitalize (lower s)) = Some c' →
  ∃ c, last_char s = Some c ∧ isspace c' = isspace c ∧
       Ascii.eqb c' question_mark = Ascii.eqb c question_mark.
Proof.
  destruct s as [|a s]; [done|]. cbn [lower capitalize]. rewrite lower_idem.
  destruct s as [|b s].
  - intros [= <-]. exists a. split; [done|].
    by rewrite isspace_to_upper, isspace_to_lower, mark_to_upper, mark_to_lower.
  - change (last_char (lower (String b s)) = Some c' → ∃ c,
      last_char (String b s) = Some c ∧ isspace c' = isspace c ∧
      Ascii.eqb c' question_mark = Ascii.eqb c question_mark).
    rewrite last_char_lower. destruct (last_char (String b s)) as [c|]; [|done].
    intros [= <-]. exists c. split; [done|].
    by rewrite isspace_to_lower, mark_to_lower.
Qed.

Lemma capitalize_lower_cons (a : ascii) (r : string) :
  capitalize (lower (String a r)) = String (to_upper (to_lower a)) (lower r).
Proof. cbn. by rewrite lower_idem. Qed.

Lemma drop_last_cons (a b : ascii) (r : string) :
  drop_last (String a (String b r)) = String a (drop_last (String b r)).
Proof. done. Qed.

Lemma drop_last_capitalize_lower (s : string) :
  drop_last (capitalize (lower s)) = capitalize (lower (drop_last s)).
Proof.
  destruct s as [|a [|b s]]; [done|done|].
  rewrite drop_last_cons, !capitalize_lower_cons.
  change (lower (String b s)) with (String (to_lower b) (lower s)).
  rewrite drop_last_cons.
  change (String (to_lower b) (lower s)) with (lower (String b s)).
  by rewrite drop_last_lower.
Qed.

Lemma first_char_drop_last (s : string) (c : ascii) :
  first_char (drop_last s) = Some c → first_char s = Some c.
Proof. destruct s as [|a s]; [done|]. by destruct s. Qed.

(** A trimmed text stays trimmed under [lower] and [capitalize]. *)
Lemma trimmed_capitalize_lower (s : string) :
  trimmed s → trimmed (capitalize (lower s)).
Proof.
  intros [Hf Hl]. split.
  - intros c. rewrite first_char_capitalize_lower.
    destruct (first_char s) as [a|]; [|done]. intros [= <-].
    rewrite isspace_to_upper, isspace_to_lower. by apply Hf.
  - intros c H. apply last_char_capitalize_lower in H as (a & Ha & Hs & _).
    rewrite Hs. by apply Hl.
Qed.

(** The text made of a trimmed line that ends cleanly is trimmed and is not
    empty; it ends in a question mark exactly when the line ended in two. *)
Lemma question_text_clean (line : string) :
  clean_ending (strip line) = true →
  strip (question_text line) = question_text line ∧
  question_text line ≠ EmptyString ∧
  (last_char (question_text line) = Some question_mark
   ↔ ends_in_two_marks (strip line) = true).
Proof.
  unfold question_text, clean_ending, ends_in_two_marks.
  pose proof (strip_trimmed line) as Ht. set (t := strip line) in *.
  destruct (last_char t) as [c|] eqn:Hc; [|done].
  destruct (last_char (capitalize (lower t))) as [c'|] eqn:Hc'.
  2:{ apply last_char_None in Hc'. destruct t; [done|discriminate]. }
  pose proof Hc' as Hc2.
  apply last_char_capitalize_lower in Hc2 as (c0 & Hc0 & Hsp & Hmk).
  rewrite Hc in Hc0. injection Hc0 as <-.
  destruct (Ascii.eqb_spec c question_mark) as [->|Hne].
  - (* one question mark is taken off *)
    destruct (last_char (drop_last t)) as [d|] eqn:Hd; [|done].
    intros Hd1. apply negb_true_iff in Hd1.
    apply Ascii.eqb_eq in Hmk. subst c'.
    rewrite bool_decide_eq_true_2 by done.
    rewrite drop_last_capitalize_lower.
    assert (Hu : trimmed (drop_last t)).
    { split.
      - intros a Ha. apply first_char_drop_last in Ha. by apply (proj1 Ht).
      - intros a Ha. congruence. }
    pose proof (trimmed_capitalize_lower _ Hu) as Hq.
    split; [by apply trimmed_strip|]. split.
    + destruct (drop_last t); [done|discriminate].
    + cbn [andb]. split.
      * intros Hl. apply last_char_capitalize_lower in Hl as (a & Ha & _ & Hm).
        rewrite Hd in Ha. injection Ha as <-.
        by rewrite Ascii.eqb_refl in Hm.
      * intros Hm.
        destruct (last_char (capitalize (lower (drop_last t)))) as [e|] eqn:He.
        -- pose proof He as He'.
           apply last_char_capitalize_lower in He' as (a & Ha & _ & Hm').
           rewrite Hd in Ha. injection Ha as <-. rewrite Hm in Hm'.
           apply Ascii.eqb_eq in Hm'. by subst e.
        -- apply last_char_None in He.
           destruct (drop_last t); discriminate.
  - intros _.
    assert (Hne' : c' ≠ question_mark).
    { intros ->. rewrite Ascii.eqb_refl in Hmk. discriminate. }
    rewrite bool_decide_eq_false_2 by congruence.
    pose proof (trimmed_capitalize_lower _ Ht) as Hq.
    split; [by apply trimmed_strip|]. split.
    + destruct t; [done|discriminate].
    + rewrite Hc'. split; [congruence|].
      destruct (last_char (drop_last t)); cbn; discriminate.
Qed.

(** ** The yes/no prompt *)

(** An answer of the prompt is what the first line that reads as an answer
    reads as; the lines before it read as nothing. *)
Lemma get_yes_or_no_loop_inv (fuel : nat) (q : string) (w w' : world) (b : bool) :
  get_yes_or_no_loop fuel q w = Ok (b, w') →
  quiet w w' ∧
  ∃ junk line, stdin w = junk ++ line :: stdin w' ∧
               Forall (λ l, reads_as l = None) junk ∧ reads_as line = Some b.
Proof.
  revert w. induction fuel as [|fuel IH]; intros w; [discriminate|].
  cbn [get_yes_or_no_loop]. intros H.
  apply bind_Ok in H as ([] & w1 & Hp & H). apply print_end_said in Hp as [Hq1 Hs1].
  apply bind_Ok in H as (line & w2 & Hi & H).
  apply input_quiet in Hi as [Hq Hl]. rewrite Hs1 in Hl.
  assert (Hq2 : quiet w w2) by by eapply quiet_trans.
  destruct (startswith "yes" (lower (strip line))) eqn:Hyes.
  { injection H as <- <-. split; [done|]. exists [], line.
    split; [done|]. split; [done|]. unfold reads_as. by rewrite Hyes. }
  destruct (startswith "no" (lower (strip line))) eqn:Hno.
  { injection H as <- <-. split; [done|]. exists [], line.
    split; [done|]. split; [done|]. unfold reads_as. by rewrite Hyes, Hno. }
  apply bind_Ok in H as ([] & w3 & Hp3 & H). apply print_said in Hp3 as [Hq3 Hs3].
  apply IH in H as (Hq4 & junk & l & Hst & Hjunk & Hr). split.
  - eapply quiet_trans; [exact Hq2|]. by eapply quiet_trans.
  - exists (line :: junk), l. rewrite Hl, <- Hs3, Hst. split; [done|].
    split; [|done]. constructor; [|done]. unfold reads_as. by rewrite Hyes, Hno.
Qed.

Lemma get_yes_or_no_inv (q : string) (w w' : world) (b : bool) :
  get_yes_or_no q w = Ok (b, w') →
  quiet w w' ∧
  ∃ junk line, stdin w = junk ++ line :: stdin w' ∧
               Forall (λ l, reads_as l = None) junk ∧ reads_as line = Some b.
Proof. apply get_yes_or_no_loop_inv. Qed.

Lemma get_yes_or_no_quiet (q : string) (w w' : world) (b : bool) :
  get_yes_or_no q w = Ok (b, w') →
  quiet w w' ∧ length (stdin w') < length (stdin w).
Proof.
  intros H. apply get_yes_or_no_inv in H as (Hq & junk & line & Hst & _).
  split; [done|]. rewrite Hst, length_app. cbn. lia.
Qed.

(** The fuel is never used up: the prompt returns an answer or meets the end
    of the input. *)
Lemma get_yes_or_no_loop_fuel (fuel : nat) (q : string) (w : world) :
  length (stdin w) < fuel → returns_or_eof (get_yes_or_no_loop fuel q w).
Proof.
  revert w. induction fuel as [|fuel IH]; intros w Hlen; [lia|].
  cbn [get_yes_or_no_loop].
  destruct w as [h r ls tr]. destruct ls as [|line rest]; [done|].
  unfold mbind, M_bind, print_end, emit, input.
  cbn [stdin heap_of root_node trace] in *.
  destruct (startswith "yes" (lower (strip line))); [done|].
  destruct (startswith "no" (lower (strip line))); [done|].
  apply IH. cbn in *. lia.
Qed.

Lemma get_yes_or_no_total (q : string) (w : world) :
  returns_or_eof (get_yes_or_no q w).
Proof. apply get_yes_or_no_loop_fuel. lia. Qed.

(** A line that reads as an answer is the answer. *)
Lemma get_yes_or_no_loop_answer (fuel : nat) (q line : string) (b : bool)
    (h : heap) (r : loc) (rest : list string) (tr : list event) :
  reads_as line = Some b →
  get_yes_or_no_loop (S fuel) q (World h r (line :: rest) tr)
  = Ok (b, World h r rest (tr ++ [Print (q +:+ " ")])).
Proof.
  unfold reads_as. intros H. cbn [get_yes_or_no_loop].
  unfold mbind, M_bind, print_end, emit, input.
  cbn [stdin heap_of root_node trace]. rewrite append_empty_r.
  destruct (startswith "yes" (lower (strip line))); [by simplify_eq|].
  destruct (startswith "no" (lower (strip line))); [by simplify_eq|done].
Qed.

Lemma get_yes_or_no_answer (q line : string) (b : bool) (h : heap) (r : loc)
    (rest : list string) (tr : list event) :
  reads_as line = Some b →
  get_yes_or_no q (World h r (line :: rest) tr)
  = Ok (b, World h r rest (tr ++ [Print (q +:+ " ")])).
Proof. apply get_yes_or_no_loop_answer. Qed.

(** ** The free-text prompts *)

Lemma confirmed_later (line : string) (k ls ls' : list string) :
  confirmed line ls ls' → confirmed line (k ++ ls) ls'.
Proof.
  destruct 1 as [before junk yes rest Hj Hy]. rewrite app_assoc. by constructor.
Qed.

Lemma confirmed_shorter (line : string) (ls ls' : list string) :
  confirmed line ls ls' → line ∈ ls ∧ length ls' < length ls.
Proof.
  destruct 1 as [before junk yes rest Hj Hy]. split.
  - apply elem_of_app. right. apply elem_of_cons. by left.
  - rewrite length_app. cbn. rewrite length_app. cbn. lia.
Qed.

Lemma get_new_animal_name_loop_inv (fuel : nat) (w w' : world) (name : string) :
  get_new_animal_name_loop fuel w = Ok (name, w') →
  quiet w w' ∧
  ∃ line, confirmed line (stdin w) (stdin w') ∧
          name = lower (strip line) ∧ name ≠ EmptyString.
Proof.
  revert w. induction fuel as [|fuel IH]; intros w; [discriminate|].
  cbn [get_new_animal_name_loop]. intros H.
  apply bind_Ok in H as ([] & w1 & Hp & H). apply print_end_said in Hp as [Hq1 Hs1].
  apply bind_Ok in H as (line & w2 & Hi & H).
  apply input_quiet in Hi as [Hq2 Hl]. rewrite Hs1 in Hl.
  assert (Hq : quiet w w2) by by eapply quiet_trans.
  assert (Hrec : ∀ w3 k, quiet w2 w3 → stdin w2 = k ++ stdin w3 →
    get_new_animal_name_loop fuel w3 = Ok (name, w') →
    quiet w w' ∧
    ∃ line, confirmed line (stdin w) (stdin w') ∧
            name = lower (strip line) ∧ name ≠ EmptyString).
  { intros w3 k Hq3 Hk H3. apply IH in H3 as (Hq4 & l & Hc & Hname). split.
    - eapply quiet_trans; [exact Hq|]. by eapply quiet_trans.
    - exists l. split; [|done]. rewrite Hl, Hk.
      by apply (confirmed_later _ (line :: k)). }
  destruct (is_empty (lower (strip line))) eqn:He.
  { apply (Hrec w2 []); [apply quiet_refl | done | done]. }
  apply bind_Ok in H as (yes & w3 & Hy & H).
  apply get_yes_or_no_inv in Hy as (Hq3 & junk & l & Hst & Hjunk & Hr).
  destruct yes.
  - injection H as <- <-. split; [by eapply quiet_trans|].
    exists line. split.
    + rewrite Hl, Hst. by apply (confirmed_here line [] junk l).
    + split; [done|]. intros E. rewrite E in He. discriminate.
  - apply (Hrec w3 (junk ++ [l])); [done | | done].
    by rewrite Hst, <- app_assoc.
Qed.

Lemma get_new_animal_name_inv (w w' : world) (name : string) :
  get_new_animal_name w = Ok (name, w') →
  quiet w w' ∧
  ∃ line, confirmed line (stdin w) (stdin w') ∧
          name = lower (strip line) ∧ name ≠ EmptyString.
Proof. apply get_new_animal_name_loop_inv. Qed.

Lemma get_question_loop_inv (fuel : nat) (old new : string) (w w' : world)
    (q : string) :
  get_question_loop fuel old new w = Ok (q, w') →
  quiet w w' ∧
  ∃ line, confirmed line (stdin w) (stdin w') ∧
          strip line ≠ EmptyString ∧ q = question_text line.
Proof.
  revert w. induction fuel as [|fuel IH]; intros w; [discriminate|].
  cbn [get_question_loop]. intros H.
  apply bind_Ok in H as ([] & w1 & Hp & H). apply print_end_said in Hp as [Hq1 Hs1].
  apply bind_Ok in H as (line & w2 & Hi & H).
  apply input_quiet in Hi as [Hq2 Hl]. rewrite Hs1 in Hl.
  assert (Hq : quiet w w2) by by eapply quiet_trans.
  assert (Hrec : ∀ w3 k, quiet w2 w3 → stdin w2 = k ++ stdin w3 →
    get_question_loop fuel old new w3 = Ok (q, w') →
    quiet w w' ∧
    ∃ line, confirmed line (stdin w) (stdin w') ∧
            strip line ≠ EmptyString ∧ q = question_text line).
  { intros w3 k Hq3 Hk H3. apply IH in H3 as (Hq4 & l & Hc & Hname). split.
    - eapply quiet_trans; [exact Hq|]. by eapply quiet_trans.
    - exists l. split; [|done]. rewrite Hl, Hk.
      by apply (confirmed_later _ (line :: k)). }
  destruct (is_empty (strip line)) eqn:He.
  { apply (Hrec w2 []); [apply quiet_refl | done | done]. }
  apply bind_Ok in H as ([] & w3 & Hp3 & H). apply print_said in Hp3 as [Hq3 Hs3].
  apply bind_Ok in H as ([] & w4 & Hp4 & H). apply print_said in Hp4 as [Hq4 Hs4].
  apply bind_Ok in H as (yes & w5 & Hy & H).
  apply get_yes_or_no_inv in Hy as (Hq5 & junk & l & Hst & Hjunk & Hr).
  rewrite Hs4, Hs3 in Hst.
  assert (Hq25 : quiet w2 w5).
  { eapply quiet_trans; [exact Hq3|]. by eapply quiet_trans. }
  destruct yes.
  - injection H as <- <-. split; [by eapply quiet_trans|].
    exists line. split.
    + rewrite Hl, Hst. by apply (confirmed_here line [] junk l).
    + split; [|done]. intros E. rewrite E in He. discriminate.
  - apply (Hrec w5 (junk ++ [l])); [done | | done].
    by rewrite Hst, <- app_assoc.
Qed.

Lemma get_question_inv (old new : string) (w w' : world) (q : string) :
  get_question old new w = Ok (q, w') →
  quiet w w' ∧
  ∃ line, confirmed line (stdin w) (stdin w') ∧
          strip line ≠ EmptyString ∧ q = question_text line.
Proof.
  unfold get_question. intros H.
  apply bind_Ok in H as ([] & w1 & Hp1 & H). apply print_said in Hp1 as [Hq1 Hs1].
  apply bind_Ok in H as ([] & w2 & Hp2 & H). apply print_said in Hp2 as [Hq2 Hs2].
  apply get_question_loop_inv in H as (Hq & line & Hc & Hline).
  rewrite Hs2, Hs1 in Hc. split.
  - eapply quiet_trans; [exact Hq1|]. by eapply quiet_trans.
  - by exists line.
Qed.

(** The loops of the prompts never use up their fuel: a prompt returns or
    meets the end of the input. *)
Lemma get_new_animal_name_loop_fuel (fuel : nat) (w : world) :
  length (stdin w) < fuel → returns_or_eof (get_new_animal_name_loop fuel w).
Proof.
  revert w. induction fuel as [|fuel IH]; intros w Hlen; [lia|].
  cbn [get_new_animal_name_loop].
  destruct w as [h r ls tr]. destruct ls as [|line rest]; [done|].
  unfold mbind, M_bind, print_end, emit, input.
  cbn [stdin heap_of root_node trace] in *.
  destruct (is_empty (lower (strip line))).
  { apply IH. cbn in *. lia. }
  match goal with |- context [get_yes_or_no ?q ?w0] =>
    pose proof (get_yes_or_no_total q w0) as Ht;
    destruct (get_yes_or_no q w0) as [[b w1]|e] eqn:Hy; [|done] end.
  apply get_yes_or_no_quiet in Hy as [_ Hq].
  destruct b; [done|]. apply IH. cbn in *. lia.
Qed.

Lemma get_new_animal_name_total (w : world) :
  returns_or_eof (get_new_animal_name w).
Proof. apply get_new_animal_name_loop_fuel. lia. Qed.

Lemma get_question_loop_fuel (fuel : nat) (old new : string) (w : world) :
  length (stdin w) < fuel → returns_or_eof (get_question_loop fuel old new w).
Proof.
  revert w. induction fuel as [|fuel IH]; intros w Hlen; [lia|].
  cbn [get_question_loop].
  destruct w as [h r ls tr]. destruct ls as [|line rest]; [done|].
  unfold mbind, M_bind, print, print_end, emit, input.
  cbn [stdin heap_of root_node trace] in *.
  destruct (is_empty (strip line)).
  { apply IH. cbn in *. lia. }
  match goal with |- context [get_yes_or_no ?q ?w0] =>
    pose proof (get_yes_or_no_total q w0) as Ht;
    destruct (get_yes_or_no q w0) as [[b w1]|e] eqn:Hy; [|done] end.
  apply get_yes_or_no_quiet in Hy as [_ Hq].
  destruct b; [done|]. apply IH. cbn in *. lia.
Qed.

Lemma get_question_total (old new : string) (w : world) :
  returns_or_eof (get_question old new w).
Proof.
  unfold get_question, print, print_end, emit, mbind, M_bind, with_fuel.
  apply get_question_loop_fuel. cbn. lia.
Qed.

(** ** The line a prompt settles on *)

Lemma answer_in_skips (junk : list string) (line : string) (b : bool)
    (rest : list string) :
  Forall (λ l, reads_as l = None) junk →
  reads_as line = Some b →
  answer_in (junk ++ line :: rest) = Some (b, rest).
Proof.
  intros Hjunk Hline. induction Hjunk as [|l junk Hl _ IH]; cbn [app answer_in].
  - by rewrite Hline.
  - by rewrite Hl.
Qed.

Lemma answer_in_shorter (lines : list string) (b : bool) (rest : list string) :
  answer_in lines = Some (b, rest) → length rest < length lines.
Proof.
  induction lines as [|l lines IH]; [discriminate|]. cbn [answer_in length].
  destruct (reads_as l).
  - intros [= <- <-]. lia.
  - intros H. apply IH in H. lia.
Qed.

(** The answer of the yes/no prompt is the answer the lines hold. *)
Lemma get_yes_or_no_answer_in (q : string) (w w' : world) (b : bool) :
  get_yes_or_no q w = Ok (b, w') → answer_in (stdin w) = Some (b, stdin w').
Proof.
  intros H. apply get_yes_or_no_inv in H as (_ & junk & line & -> & Hjunk & Hline).
  by apply answer_in_skips.
Qed.

Lemma confirmed_line_mono (given : string → bool) (fuel : nat) :
  ∀ (fuel' : nat) (lines : list string) (r : string * list string),
    confirmed_line fuel given lines = Some r →
    fuel ≤ fuel' →
    confirmed_line fuel' given lines = Some r.
Proof.
  induction fuel as [|fuel IH]; intros fuel' lines r H Hle; [discriminate|].
  destruct fuel' as [|fuel']; [lia|].
  destruct lines as [|line rest]; [discriminate|].
  cbn [confirmed_line] in *.
  destruct (given line).
  - destruct (answer_in rest) as [[[] rest']|]; [done| |done].
    apply IH; [done|lia].
  - apply IH; [done|lia].
Qed.

(** The name the prompt returns is made of the line the lines settle on. *)
Lemma get_new_animal_name_loop_line (fuel : nat) (w w' : world) (name : string) :
  get_new_animal_name_loop fuel w = Ok (name, w') →
  ∃ line, confirmed_name (stdin w) = Some (line, stdin w') ∧
          name = lower (strip line).
Proof.
  revert w. induction fuel as [|fuel IH]; intros w; [discriminate|].
  cbn [get_new_animal_name_loop]. intros H.
  apply bind_Ok in H as ([] & w1 & Hp & H). apply print_end_said in Hp as [_ Hs1].
  apply bind_Ok in H as (line & w2 & Hi & H).
  apply input_quiet in Hi as [_ Hl]. rewrite Hs1 in Hl.
  unfold confirmed_name. rewrite Hl. cbn [length confirmed_line].
  unfold names_animal at 1.
  destruct (is_empty (lower (strip line))) eqn:He; cbn [negb].
  { by apply IH. }
  apply bind_Ok in H as (yes & w3 & Hy & H).
  apply get_yes_or_no_answer_in in Hy. rewrite Hy.
  destruct yes.
  - injection H as <- <-. by exists line.
  - apply IH in H as (l & Hc & Hname). exists l. split; [|done].
    apply (confirmed_line_mono _ _ _ _ _ Hc).
    apply answer_in_shorter in Hy. lia.
Qed.

Lemma get_new_animal_name_line (w w' : world) (name : string) :
  get_new_animal_name w = Ok (name, w') →
  ∃ line, confirmed_name (stdin w) = Some (line, stdin w') ∧
          name = lower (strip line).
Proof. apply get_new_animal_name_loop_line. Qed.

(** The text the prompt returns is made of the line the lines settle on. *)
Lemma get_question_loop_line (fuel : nat) (old new : string) (w w' : world)
    (q : string) :
  get_question_loop fuel old new w = Ok (q, w') →
  ∃ line, confirmed_question (stdin w) = Some (line, stdin w') ∧
          q = question_text line.
Proof.
  revert w. induction fuel as [|fuel IH]; intros w; [discriminate|].
  cbn [get_question_loop]. intros H.
  apply bind_Ok in H as ([] & w1 & Hp & H). apply print_end_said in Hp as [_ Hs1].
  apply bind_Ok in H as (line & w2 & Hi & H).
  apply input_quiet in Hi as [_ Hl]. rewrite Hs1 in Hl.
  unfold confirmed_question. rewrite Hl. cbn [length confirmed_line].
  unfold states_difference at 1.
  destruct (is_empty (strip line)) eqn:He; cbn [negb].
  { by apply IH. }
  apply bind_Ok in H as ([] & w3 & Hp3 & H). apply print_said in Hp3 as [_ Hs3].
  apply bind_Ok in H as ([] & w4 & Hp4 & H). apply print_said in Hp4 as [_ Hs4].
  apply bind_Ok in H as (yes & w5 & Hy & H).
  apply get_yes_or_no_answer_in in Hy. rewrite Hs4, Hs3 in Hy. rewrite Hy.
  destruct yes.
  - injection H as <- <-. by exists line.
  - apply IH in H as (l & Hc & Hq). exists l. split; [|done].
    apply (confirmed_line_mono _ _ _ _ _ Hc).
    apply answer_in_shorter in Hy. lia.
Qed.

Lemma get_question_line (old new : string) (w w' : world) (q : string) :
  get_question old new w = Ok (q, w') →
  ∃ line, confirmed_question (stdin w) = Some (line, stdin w') ∧
          q = question_text line.
Proof.
  unfold get_question. intros H.
  apply bind_Ok in H as ([] & w1 & Hp1 & H). apply print_said in Hp1 as [_ Hs1].
  apply bind_Ok in H as ([] & w2 & Hp2 & H). apply print_said in Hp2 as [_ Hs2].
  apply get_question_loop_line in H as (line & Hc & Hq).
  rewrite Hs2, Hs1 in Hc. by exists line.
Qed.

(** ** The store *)

Lemma load_inv (l : loc) (w w' : world) (n : node) :
  load l w = Ok (n, w') → w' = w ∧ heap_of w !! l = Some n.
Proof.
  unfold load, get_heap, mbind, M_bind.
  destruct (heap_of w !! l) as [n'|]; [|discriminate].
  by intros [= -> ->].
Qed.

Lemma store_inv (l : loc) (n : node) (w w' : world) (u : unit) :
  store l n w = Ok (u, w') → w' = with_heap (<[l := n]> (heap_of w)) w.
Proof. unfold store, get_heap, put_heap, mbind, M_bind. by intros [= <-]. Qed.

Lemma alloc_inv (n : node) (w w' : world) (l : loc) :
  alloc n w = Ok (l, w') →
  l = length (heap_of w) ∧ w' = with_heap (heap_of w ++ [n]) w.
Proof. unfold alloc, get_heap, put_heap, mbind, M_bind. by intros [= <- <-]. Qed.

Lemma get_animal_name_inv (l : loc) (w w' : world) (a : string) :
  get_animal_name l w = Ok (a, w') →
  w' = w ∧ ∃ p, heap_of w !! l = Some (Guess p a).
Proof.
  unfold get_animal_name. intros H.
  apply bind_Ok in H as (n & w1 & Hl & H). apply load_inv in Hl as [-> Hl].
  destruct n as [p a'|]; [|discriminate]. injection H as <- <-. eauto.
Qed.

Lemma get_parent_inv (l : loc) (w w' : world) (p : option loc) :
  get_parent l w = Ok (p, w') →
  w' = w ∧ ∃ n, heap_of w !! l = Some n ∧ p = node_parent n.
Proof.
  unfold get_parent. intros H.
  apply bind_Ok in H as (n & w1 & Hl & H). apply load_inv in Hl as [-> Hl].
  injection H as <- <-. eauto.
Qed.

Lemma set_parent_inv (l : loc) (p : option loc) (w w' : world) (u : unit) :
  set_parent l p w = Ok (u, w') →
  ∃ n, heap_of w !! l = Some n ∧
       w' = with_heap (<[l := with_parent p n]> (heap_of w)) w.
Proof.
  unfold set_parent. intros H.
  apply bind_Ok in H as (n & w1 & Hl & H). apply load_inv in Hl as [-> Hl].
  apply store_inv in H. eauto.
Qed.

Lemma set_negative_inv (l v : loc) (w w' : world) (u : unit) :
  set_negative l v w = Ok (u, w') →
  ∃ p q x y, heap_of w !! l = Some (Question p q x y) ∧
             w' = with_heap (<[l := Question p q x v]> (heap_of w)) w.
Proof.
  unfold set_negative. intros H.
  apply bind_Ok in H as (n & w1 & Hl & H). apply load_inv in Hl as [-> Hl].
  destruct n as [|p q x y]; [discriminate|]. apply store_inv in H. eauto 10.
Qed.

Lemma set_positive_inv (l v : loc) (w w' : world) (u : unit) :
  set_positive l v w = Ok (u, w') →
  ∃ p q x y, heap_of w !! l = Some (Question p q x y) ∧
             w' = with_heap (<[l := Question p q v y]> (heap_of w)) w.
Proof.
  unfold set_positive. intros H.
  apply bind_Ok in H as (n & w1 & Hl & H). apply load_inv in Hl as [-> Hl].
  destruct n as [|p q x y]; [discriminate|]. apply store_inv in H. eauto 10.
Qed.

Lemma py_eq_inv (a b : loc) (w w' : world) (r : bool) :
  py_eq a b w = Ok (r, w') →
  w' = w ∧ node_eq recursion_limit (heap_of w) a b = Ok r.
Proof.
  unfold py_eq. destruct (node_eq _ _ _ _) as [r'|e]; [|discriminate].
  by intros [= -> ->].
Qed.

Lemma with_heap_with_heap (h h' : heap) (w : world) :
  with_heap h (with_heap h' w) = with_heap h w.
Proof. done. Qed.

(** Lines 155-160 of [add_new_question], the rewiring of the parent. *)
Lemma rewire_inv (g nq : loc) (old_parent : option loc) (w w' : world) (u : unit) :
  match old_parent with
  | Some parent =>
      p ← load parent;
      match p with
      | Question _ _ parent_positive parent_negative =>
          is_negative ← py_eq parent_negative g;
          if (is_negative : bool) then set_negative parent nq
          else
            is_positive ← py_eq parent_positive g;
            if (is_positive : bool) then set_positive parent nq
            else mret tt
      | Guess _ _ => mret tt
      end
  | None => mret tt
  end w = Ok (u, w') →
  ∃ h', rewired (heap_of w) g nq old_parent h' ∧ w' = with_heap h' w.
Proof.
  destruct w as [h r ls tr]. destruct old_parent as [p|].
  2:{ intros [= <-]. eexists. split; [constructor|done]. }
  intros H. apply bind_Ok in H as (n & w1 & Hl & H).
  apply load_inv in Hl as [-> Hl]. cbn [heap_of] in Hl.
  destruct n as [pp a|pp q x y].
  { injection H as <-. eexists. split; [exact (rewired_not_question _ _ _ _ _ _ Hl)|done]. }
  apply bind_Ok in H as (b & w1 & He & H).
  apply py_eq_inv in He as [-> Hneg]. cbn [heap_of] in Hneg. destruct b.
  { apply set_negative_inv in H as (p' & q' & x' & y' & Hp & ->).
    cbn [heap_of] in Hp. rewrite Hl in Hp. injection Hp as <- <- <- <-.
    eexists. split; [exact (rewired_negative _ _ _ _ _ _ _ _ Hl Hneg)|done]. }
  apply bind_Ok in H as (b & w1 & He & H).
  apply py_eq_inv in He as [-> Hpos]. cbn [heap_of] in Hpos. destruct b.
  { apply set_positive_inv in H as (p' & q' & x' & y' & Hp & ->).
    cbn [heap_of] in Hp. rewrite Hl in Hp. injection Hp as <- <- <- <-.
    eexists. split; [exact (rewired_positive _ _ _ _ _ _ _ _ Hl Hneg Hpos)|done]. }
  injection H as <-. eexists. split; [exact (rewired_neither _ _ _ _ _ _ _ _ Hl Hneg Hpos)|done].
Qed.

Lemma rewired_length (h h' : heap) (g nq : loc) (pg : option loc) :
  rewired h g nq pg h' → length h' = length h.
Proof. destruct 1; rewrite ?length_insert; reflexivity. Qed.

(** The rewiring writes to a question only. *)
Lemma rewired_guess (h h' : heap) (g nq : loc) (pg : option loc) (l : loc)
    (p : option loc) (a : string) :
  rewired h g nq pg h' → h !! l = Some (Guess p a) → h' !! l = Some (Guess p a).
Proof.
  destruct 1 as [|????|p0 ???? Hp|p0 ???? Hp|]; intros Hl; try done.
  - destruct (decide (p0 = l)) as [->|]; [congruence|].
    by rewrite list_lookup_insert_ne.
  - destruct (decide (p0 = l)) as [->|]; [congruence|].
    by rewrite list_lookup_insert_ne.
Qed.

(** What [add_new_question] does, step by step. *)
(** The steps of the lesson, with the lines of its two dialogues. *)
Lemma add_new_question_steps (g nq ng : loc) (w w' : world) :
  add_new_question g w = Ok ((nq, ng), w') →
  ∃ pg name newname q h3 w3 mid,
    heap_of w !! g = Some (Guess pg name) ∧
    ng = length (heap_of w) ∧ nq = S (length (heap_of w)) ∧
    (∃ line, confirmed line (stdin w) mid ∧
             newname = lower (strip line) ∧ newname ≠ EmptyString) ∧
    (∃ line, confirmed line mid (stdin w3) ∧
             strip line ≠ EmptyString ∧ q = question_text line) ∧
    rewired (heap_of w ++ [Guess None newname; Question None q ng g]) g nq pg h3 ∧
    quiet w w3 ∧
    w' = with_heap (<[g := Guess (Some nq) name]>
                      (<[ng := Guess (Some nq) newname]> h3)) w3 ∧
    (∃ line, confirmed_name (stdin w) = Some (line, mid) ∧
             newname = lower (strip line)) ∧
    (∃ line, confirmed_question mid = Some (line, stdin w3) ∧
             q = question_text line).
Proof.
  unfold add_new_question. intros H.
  apply bind_Ok in H as (name & w0 & Hname & H).
  apply get_animal_name_inv in Hname as [-> [pg Hg]].
  apply bind_Ok in H as ([] & w1 & Hp1 & H). apply print_said in Hp1 as [Hq1 Hs1].
  apply bind_Ok in H as ([] & w2 & Hp2 & H).
  apply print_colored_said in Hp2 as [Hq2 Hs2].
  apply bind_Ok in H as ([] & w3 & Hp3 & H). apply print_said in Hp3 as [Hq3 Hs3].
  apply bind_Ok in H as (newname & w4 & Hn & H).
  pose proof (get_new_animal_name_line _ _ _ Hn) as Hname4.
  apply get_new_animal_name_inv in Hn as (Hq4 & Hline4).
  apply bind_Ok in H as (q & w5 & Hqu & H).
  pose proof (get_question_line _ _ _ _ _ Hqu) as Htext5.
  apply get_question_inv in Hqu as (Hq5 & Hline5).
  assert (Hq03 : quiet w w3).
  { eapply quiet_trans; [exact Hq1|]. eapply quiet_trans; [exact Hq2|exact Hq3]. }
  assert (Hq05 : quiet w w5).
  { eapply quiet_trans; [exact Hq03|]. eapply quiet_trans; [exact Hq4|exact Hq5]. }
  assert (Hs03 : stdin w3 = stdin w) by (rewrite Hs3, Hs2; exact Hs1).
  assert (Hh5 : heap_of w5 = heap_of w) by apply Hq05.
  apply bind_Ok in H as (ng' & w6 & Ha1 & H).
  apply alloc_inv in Ha1 as [-> ->].
  apply bind_Ok in H as (nq' & w7 & Ha2 & H).
  apply alloc_inv in Ha2 as [-> ->]. rewrite with_heap_with_heap in H.
  change (heap_of (with_heap ?h _)) with h in H.
  rewrite <- app_assoc in H. cbn [app] in H. rewrite Hh5 in H.
  set (h2 := heap_of w ++ [_; _]) in H.
  assert (Hg2 : h2 !! g = Some (Guess pg name)).
  { unfold h2. rewrite lookup_app_l; [done|]. by eapply lookup_lt_Some. }
  apply bind_Ok in H as (pg' & w8 & Hpar & H).
  apply get_parent_inv in Hpar as [-> (n & Hn & ->)].
  change (heap_of (with_heap ?h _)) with h in Hn. rewrite Hg2 in Hn.
  injection Hn as <-. cbn [node_parent] in H.
  apply bind_Ok in H as ([] & w9 & Hrw & H).
  apply rewire_inv in Hrw as (h3 & Hrw & ->).
  change (heap_of (with_heap ?h _)) with h in Hrw.
  rewrite with_heap_with_heap in H.
  apply bind_Ok in H as ([] & w10 & Hsp1 & H).
  apply set_parent_inv in Hsp1 as (n1 & Hn1 & ->).
  change (heap_of (with_heap ?h _)) with h in Hn1.
  change (heap_of (with_heap ?h _)) with h in H.
  rewrite with_heap_with_heap in H.
  assert (Hng : h3 !! length (heap_of w) = Some (Guess None newname)).
  { eapply rewired_guess; [exact Hrw|]. unfold h2.
    rewrite lookup_app_r by lia. by rewrite Nat.sub_diag. }
  rewrite Hng in Hn1. injection Hn1 as <-. cbn [with_parent] in H.
  apply bind_Ok in H as ([] & w11 & Hsp2 & H).
  apply set_parent_inv in Hsp2 as (n2 & Hn2 & ->).
  change (heap_of (with_heap ?h _)) with h in Hn2.
  change (heap_of (with_heap ?h _)) with h in H.
  rewrite with_heap_with_heap in H.
  assert (Hglt : g < length (heap_of w)) by by eapply lookup_lt_Some.
  rewrite list_lookup_insert_ne in Hn2 by lia.
  rewrite (rewired_guess _ _ _ _ _ _ _ _ Hrw Hg2) in Hn2.
  injection Hn2 as <-. cbn [with_parent] in H.
  assert (Hnq : length (heap_of w ++ [Guess None newname]) = S (length (heap_of w))).
  { rewrite length_app. cbn. lia. }
  rewrite Hnq in H, Hrw.
  injection H as <- <- <-.
  exists pg, name, newname, q, h3, w5, (stdin w4).
  split; [done|]. split; [done|]. split; [done|].
  split. { destruct Hline4 as (line & Hin & Hl). exists line. by rewrite <- Hs03. }
  split; [done|]. split; [done|]. split; [done|]. split; [done|].
  split; [|done].
  destruct Hname4 as (line & Hin & Hl). exists line. by rewrite <- Hs03.
Qed.

Lemma add_new_question_inv (g nq ng : loc) (w w' : world) :
  add_new_question g w = Ok ((nq, ng), w') →
  ∃ pg name newname q h3 w3 mid,
    heap_of w !! g = Some (Guess pg name) ∧
    ng = length (heap_of w) ∧ nq = S (length (heap_of w)) ∧
    (∃ line, confirmed line (stdin w) mid ∧
             newname = lower (strip line) ∧ newname ≠ EmptyString) ∧
    (∃ line, confirmed line mid (stdin w3) ∧
             strip line ≠ EmptyString ∧ q = question_text line) ∧
    rewired (heap_of w ++ [Guess None newname; Question None q ng g]) g nq pg h3 ∧
    quiet w w3 ∧
    w' = with_heap (<[g := Guess (Some nq) name]>
                      (<[ng := Guess (Some nq) newname]> h3)) w3.
Proof.
  intros H. apply add_new_question_steps in H
    as (pg & name & newname & q & h3 & w3 & mid & H1 & H2 & H3 & H4 & H5 & H6 & H7
        & H8 & _).
  by exists pg, name, newname, q, h3, w3, mid.
Qed.

Lemma rewired_other (h h' : heap) (g nq : loc) (pg : option loc) (l : loc) :
  rewired h g nq pg h' → pg ≠ Some l → h' !! l = h !! l.
Proof.
  destruct 1; intros Hne; try done.
  - rewrite list_lookup_insert_ne; [done|congruence].
  - rewrite list_lookup_insert_ne; [done|congruence].
Qed.

Lemma parent_known_lt (h : heap) (g p : loc) (a : string) :
  parent_known h g = true → h !! g = Some (Guess (Some p) a) → p < length h.
Proof.
  unfold parent_known. intros H Hg. rewrite Hg in H. cbn in H.
  by apply bool_decide_eq_true in H.
Qed.

(** The three nodes of the new subtree, when the parent reference of the old
    guess is an object of the store. *)
Lemma add_new_question_nodes (g nq ng : loc) (w w' : world) :
  parent_known (heap_of w) g = true →
  add_new_question g w = Ok ((nq, ng), w') →
  ∃ pg name newname q mid,
    heap_of w !! g = Some (Guess pg name) ∧
    ng = length (heap_of w) ∧ nq = S (length (heap_of w)) ∧
    (∃ line, confirmed line (stdin w) mid ∧
             newname = lower (strip line) ∧ newname ≠ EmptyString) ∧
    (∃ line, confirmed line mid (stdin w') ∧
             strip line ≠ EmptyString ∧ q = question_text line) ∧
    heap_of w' !! nq = Some (Question None q ng g) ∧
    heap_of w' !! ng = Some (Guess (Some nq) newname) ∧
    heap_of w' !! g = Some (Guess (Some nq) name) ∧
    length (heap_of w') = 2 + length (heap_of w) ∧
    root_node w' = root_node w ∧ saves w' = saves w.
Proof.
  intros Hpk H.
  apply add_new_question_inv in H
    as (pg & name & newname & q & h3 & w3 & mid & Hg & -> & -> & Hl1 & Hl2 & Hrw & Hq & ->).
  exists pg, name, newname, q, mid.
  assert (Hglt : g < length (heap_of w)) by by eapply lookup_lt_Some.
  pose proof (rewired_length _ _ _ _ _ Hrw) as Hlen3.
  rewrite length_app in Hlen3. cbn [length] in Hlen3.
  change (heap_of (with_heap ?h _)) with h.
  change (stdin (with_heap _ ?w)) with (stdin w).
  change (root_node (with_heap _ ?w)) with (root_node w).
  change (saves (with_heap _ ?w)) with (saves w).
  split; [done|]. split; [done|]. split; [done|]. split; [done|]. split; [done|].
  split.
  { rewrite !list_lookup_insert_ne by lia.
    rewrite (rewired_other _ _ _ _ _ _ Hrw).
    - rewrite lookup_app_r by lia.
      by replace (S (length (heap_of w)) - length (heap_of w)) with 1 by lia.
    - destruct pg as [p|]; [|done]. intros [= ->].
      pose proof (parent_known_lt _ _ _ _ Hpk Hg). lia. }
  split.
  { rewrite list_lookup_insert_ne by lia.
    apply list_lookup_insert_eq. lia. }
  split.
  { apply list_lookup_insert_eq. rewrite length_insert. lia. }
  split.
  { rewrite !length_insert. lia. }
  split; apply Hq.
Qed.

(** The new question and the new guess hold what is made of the lines the
    two dialogues of the lesson settle on. *)
Lemma add_new_question_text (g nq ng : loc) (w w' : world) :
  parent_known (heap_of w) g = true →
  add_new_question g w = Ok ((nq, ng), w') →
  ∃ name_line line mid,
    confirmed_name (stdin w) = Some (name_line, mid) ∧
    confirmed_question mid = Some (line, stdin w') ∧
    heap_of w' !! nq = Some (Question None (question_text line) ng g) ∧
    heap_of w' !! ng = Some (Guess (Some nq) (lower (strip name_line))).
Proof.
  intros Hpk H.
  apply add_new_question_steps in H
    as (pg & name & newname & q & h3 & w3 & mid & Hg & -> & -> & _ & _ & Hrw & Hq
        & -> & (name_line & Hname & ->) & (line & Htext & ->)).
  exists name_line, line, mid.
  assert (Hglt : g < length (heap_of w)) by by eapply lookup_lt_Some.
  pose proof (rewired_length _ _ _ _ _ Hrw) as Hlen3.
  rewrite length_app in Hlen3. cbn [length] in Hlen3.
  change (heap_of (with_heap ?h _)) with h.
  change (stdin (with_heap _ ?w)) with (stdin w).
  split; [done|]. split; [done|]. split.
  - rewrite !list_lookup_insert_ne by lia.
    rewrite (rewired_other _ _ _ _ _ _ Hrw).
    + rewrite lookup_app_r by lia.
      by replace (S (length (heap_of w)) - length (heap_of w)) with 1 by lia.
    + destruct pg as [p|]; [|done]. intros [= ->].
      pose proof (parent_known_lt _ _ _ _ Hpk Hg). lia.
  - rewrite list_lookup_insert_ne by lia.
    apply list_lookup_insert_eq. lia.
Qed.

(** ** A guess *)

Lemma saves_snoc_save (h : heap) (r : loc) (ls : list string) (tr : list event)
    (r' : loc) (h' : heap) :
  saves (World h r ls (tr ++ [Save r' h'])) = saves (World h r ls tr) ++ [(r', h')].
Proof. unfold saves. cbn. by rewrite omap_app. Qed.

Lemma save_data_inv (w w' : world) (u : unit) :
  save_data w = Ok (u, w') →
  heap_of w' = heap_of w ∧ root_node w' = root_node w ∧ stdin w' = stdin w ∧
  saves w' = saves w ++ [(root_node w, heap_of w)].
Proof.
  unfold save_data, get_root, get_heap, emit, mbind, M_bind.
  intros [= <- <-]. destruct w as [h r ls tr]. cbn [heap_of root_node stdin trace].
  split; [done|]. split; [done|]. split; [done|]. apply saves_snoc_save.
Qed.

(** What [do_guess] does: nothing but talk after a yes; after a no the tree
    grows, the new question becomes the root when the guess had no parent,
    and the tree is saved. *)
Lemma do_guess_inv (g : loc) (w w' : world) (u : unit) :
  do_guess g w = Ok (u, w') →
  ∃ pg name (yes : bool) w1,
    heap_of w !! g = Some (Guess pg name) ∧
    get_yes_or_no ("Is your animal a " +:+ name +:+ "?") w = Ok (yes, w1) ∧
    if yes then quiet w w'
    else ∃ nq ng w2,
      add_new_question g w1 = Ok ((nq, ng), w2) ∧
      heap_of w' = heap_of w2 ∧ stdin w' = stdin w2 ∧
      root_node w' = (if bool_decide (pg = None) then nq else root_node w) ∧
      saves w' = saves w ++ [(root_node w', heap_of w')].
Proof.
  unfold do_guess. intros H.
  apply bind_Ok in H as (name & w0 & Hname & H).
  apply get_animal_name_inv in Hname as [-> [pg Hg]].
  apply bind_Ok in H as (yes & w1 & Hy & H).
  exists pg, name, yes, w1. split; [done|]. split; [done|].
  apply get_yes_or_no_inv in Hy as [Hq1 _].
  destruct yes.
  - apply bind_Ok in H as ([] & w2 & Hp2 & H). apply print_said in Hp2 as [Hq2 _].
    apply print_colored_said in H as [Hq3 _].
    eapply quiet_trans; [exact Hq1|]. by eapply quiet_trans.
  - apply bind_Ok in H as (pg' & w2 & Hpar & H).
    apply get_parent_inv in Hpar as [-> (n & Hn & ->)].
    rewrite (quiet_heap _ _ Hq1), Hg in Hn. injection Hn as <-. cbn [node_parent] in H.
    apply bind_Ok in H as ([nq ng] & w2 & Ha & H).
    exists nq, ng, w2. split; [done|].
    pose proof Ha as Ha'.
    apply add_new_question_inv in Ha'
      as (pg' & name' & newname & q & h3 & w3 & mid & _ & _ & _ & _ & _ & _ & Hq3 & Hw2).
    assert (Hr2 : root_node w2 = root_node w).
    { rewrite Hw2. change (root_node (with_heap _ ?w)) with (root_node w).
      rewrite (quiet_root _ _ Hq3). apply Hq1. }
    assert (Hs2 : saves w2 = saves w).
    { rewrite Hw2. change (saves (with_heap _ ?w)) with (saves w).
      rewrite (quiet_saves _ _ Hq3). apply Hq1. }
    apply bind_Ok in H as ([] & w4 & Hroot & H).
    apply save_data_inv in H as (Hh & Hr & Hs & Hsv).
    destruct (bool_decide (pg = None)).
    + injection Hroot as <-. cbn [heap_of root_node stdin] in *.
      rewrite Hh, Hr. split; [done|]. split; [done|]. split; [done|].
      rewrite Hsv. by rewrite <- Hs2.
    + injection Hroot as <-.
      rewrite Hh, Hr, Hr2. split; [done|]. split; [done|]. split; [done|].
      by rewrite Hsv, Hs2, Hr2.
Qed.

(** ** A round *)

Lemma do_question_inv (q next : loc) (w w' : world) :
  do_question q w = Ok (next, w') →
  ∃ p text x y (yes : bool),
    heap_of w !! q = Some (Question p text x y) ∧
    get_yes_or_no (text +:+ "?") w = Ok (yes, w') ∧
    next = if yes then x else y.
Proof.
  unfold do_question. intros H.
  apply bind_Ok in H as (n & w0 & Hl & H). apply load_inv in Hl as [-> Hl].
  destruct n as [|p text x y]; [discriminate|].
  apply bind_Ok in H as (yes & w1 & Hy & H).
  exists p, text, x, y, yes. split; [done|].
  destruct yes; injection H as <- <-; done.
Qed.

Lemma load_ok (l : loc) (w : world) (n : node) :
  heap_of w !! l = Some n → load l w = Ok (n, w).
Proof. unfold load, get_heap, mbind, M_bind. by intros ->. Qed.

Lemma do_question_answer (q : loc) (p : option loc) (text line : string)
    (x y : loc) (yes : bool) (h : heap) (r : loc) (rest : list string)
    (tr : list event) :
  h !! q = Some (Question p text x y) →
  reads_as line = Some yes →
  do_question q (World h r (line :: rest) tr)
  = Ok (if yes then x else y,
        World h r rest (tr ++ [Print ((text +:+ "?") +:+ " ")])).
Proof.
  intros Hq Hline. unfold do_question.
  rewrite (bind_eq _ _ _ _ _ (load_ok q (World h r (line :: rest) tr) _ Hq)).
  rewrite (bind_eq _ _ _ _ _ (get_yes_or_no_answer _ _ _ _ _ _ _ Hline)).
  by destruct yes.
Qed.

(** A round asks questions, which changes nothing, and then makes one guess
    — or none, when it is sent to an address that holds no node. *)
Lemma play_rec_inv (fuel : nat) (node : loc) (w w' : world) (u : unit) :
  play_rec fuel node w = Ok (u, w') →
  (∃ g w0, quiet w w0 ∧ do_guess g w0 = Ok (u, w')) ∨ quiet w w'.
Proof.
  revert node w. induction fuel as [|fuel IH]; intros node w; [discriminate|].
  cbn [play_rec]. intros H.
  apply bind_Ok in H as (h & w0 & Hh & H). injection Hh as <- <-.
  destruct (heap_of w !! node) as [[pg name|p text x y]|] eqn:Hn.
  - left. exists node, w. split; [apply quiet_refl|done].
  - apply bind_Ok in H as (next & w1 & Hq & H).
    apply do_question_inv in Hq as (p' & text' & x' & y' & yes & _ & Hy & _).
    apply get_yes_or_no_inv in Hy as [Hq1 _].
    apply IH in H as [(g & w2 & Hq2 & Hg) | Hq2].
    + left. exists g, w2. split; [by eapply quiet_trans|done].
    + right. by eapply quiet_trans.
  - right. by apply print_said in H as [Hq _].
Qed.

(** A round that returns has made the guess the lines lead to, with the
    lines left for it. *)
Lemma play_rec_reaches (fuel : nat) :
  ∀ (depth : nat) (node : loc) (w w' : world) (u : unit) (g : loc)
    (rest : list string),
    play_rec fuel node w = Ok (u, w') →
    reaches depth (heap_of w) node (stdin w) = Some (g, rest) →
    ∃ w0, quiet w w0 ∧ stdin w0 = rest ∧ do_guess g w0 = Ok (u, w').
Proof.
  induction fuel as [|fuel IH]; intros depth node w w' u g rest; [discriminate|].
  destruct depth as [|depth]; [discriminate|].
  cbn [play_rec reaches]. intros H Hr.
  apply bind_Ok in H as (h & w0 & Hh & H). injection Hh as <- <-.
  destruct (heap_of w !! node) as [[pg name|p text x y]|] eqn:Hn;
    [| |discriminate Hr].
  - injection Hr as <- <-. exists w. split; [apply quiet_refl|done].
  - apply bind_Ok in H as (next & w1 & Hq & H).
    apply do_question_inv in Hq as (p' & text' & x' & y' & yes & Hn' & Hy & ->).
    rewrite Hn in Hn'. injection Hn' as <- <- <- <-.
    pose proof (get_yes_or_no_answer_in _ _ _ _ Hy) as Ha. rewrite Ha in Hr.
    apply get_yes_or_no_inv in Hy as [Hq1 _].
    rewrite <- (quiet_heap _ _ Hq1) in Hr.
    destruct (IH _ _ _ _ _ _ _ H Hr) as (w0 & Hq0 & Hs0 & Hg).
    exists w0. split; [by eapply quiet_trans|done].
Qed.

Lemma play_rec_follows (answers : list bool) :
  ∀ (fuel : nat) (h : heap) (r node : loc) (lines rest : list string)
    (tr : list event) (path : list loc) (g : loc),
    length lines < fuel →
    Forall2 (λ line yes, reads_as line = Some yes) lines answers →
    follow h node answers = Some (path, g) →
    play_rec fuel node (World h r (lines ++ rest) tr)
    = do_guess g (World h r rest (tr ++ asked h path)).
Proof.
  induction answers as [|yes answers IH];
    intros fuel h r node lines rest tr path g Hfuel Hlines Hfollow.
  - apply Forall2_nil_inv_r in Hlines as ->.
    destruct fuel as [|fuel]; [cbn in Hfuel; lia|].
    cbn [follow] in Hfollow. cbn [play_rec].
    unfold mbind, M_bind, get_heap. cbn [heap_of app].
    destruct (h !! node) as [[pg name|p text x y]|];
      [|discriminate Hfollow|discriminate Hfollow].
    injection Hfollow as <- <-. unfold asked. simpl. by rewrite app_nil_r.
  - apply Forall2_cons_inv_r in Hlines as (line & lines' & Hline & Hlines & ->).
    destruct fuel as [|fuel]; [cbn in Hfuel; lia|].
    cbn [follow] in Hfollow. cbn [play_rec].
    unfold mbind at 1. unfold M_bind, get_heap. cbn [heap_of].
    destruct (h !! node) as [[pg name|p text x y]|] eqn:Hnode;
      [discriminate Hfollow| |discriminate Hfollow].
    destruct (follow h (if yes then x else y) answers) as [[path' g']|] eqn:Hf;
      [|discriminate Hfollow].
    injection Hfollow as <- <-. cbn [app].
    rewrite (bind_eq _ _ _ _ _ (do_question_answer _ _ _ _ _ _ _ _ r _ tr Hnode Hline)).
    assert (Hasked : tr ++ asked h (node :: path')
                     = (tr ++ [Print ((text +:+ "?") +:+ " ")]) ++ asked h path').
    { unfold asked. simpl. rewrite Hnode. by rewrite <- app_assoc. }
    rewrite Hasked. destruct yes.
    + apply IH; [cbn in Hfuel; lia | exact Hlines | exact Hf].
    + apply IH; [cbn in Hfuel; lia | exact Hlines | exact Hf].
Qed.

(** A finite tree has a guess at the end of every run of answers. *)
Lemma follow_reaches_guess (fuel : nat) (h : heap) (answer : nat → bool) :
  ∀ (node : loc) (nodes : list loc) (start : nat),
    nodes_below fuel h node = Some nodes →
    ∃ k path g, k < fuel ∧
      follow h node (map answer (seq start k)) = Some (path, g).
Proof.
  induction fuel as [|fuel IH]; intros node nodes start H; [discriminate|].
  cbn [nodes_below] in H.
  destruct (h !! node) as [[pg name|p text x y]|] eqn:Hnode; [| |done].
  - exists 0, [], node. split; [lia|]. cbn. by rewrite Hnode.
  - destruct (nodes_below fuel h x) as [xs|] eqn:Hx; [|done].
    destruct (nodes_below fuel h y) as [ys|] eqn:Hy; [|done].
    destruct (IH (if answer start then x else y)
                 (if answer start then xs else ys) (S start))
      as (k & path & g & Hk & Hf).
    { by destruct (answer start). }
    exists (S k), (node :: path), g. split; [lia|].
    cbn [seq map follow]. by rewrite Hnode, Hf.
Qed.

(** * Fuel

    No function of the program stops for want of fuel: the fuel of a loop is
    a bound on its turns, not a limit of the model. *)

Lemma bind_in_time {A B : Type} (m : M A) (f : A → M B) (w : world) :
  in_time (m w) →
  (∀ a w', m w = Ok (a, w') → in_time (f a w')) →
  in_time ((m ≫= f) w).
Proof.
  unfold mbind, M_bind. intros Hm Hf.
  destruct (m w) as [[a w']|e]; [by apply Hf|].
  intros [= ->]. by apply Hm.
Qed.

Lemma returns_or_eof_in_time {A : Type} (r : result (A * world)) :
  returns_or_eof r → in_time r.
Proof. destruct r as [?|e]; [done|]. cbn. by intros -> [=]. Qed.

Lemma emit_in_time (e : event) (w : world) : in_time (emit e w).
Proof. done. Qed.

Lemma print_in_time (t : string) (w : world) : in_time (print t w).
Proof. done. Qed.

Lemma print_colored_in_time (t c : string) (w : world) :
  in_time (print_colored t c w).
Proof. done. Qed.

Lemma load_in_time (l : loc) (w : world) : in_time (load l w).
Proof.
  unfold load, get_heap, mbind, M_bind. by destruct (heap_of w !! l).
Qed.

Lemma store_in_time (l : loc) (n : node) (w : world) : in_time (store l n w).
Proof. done. Qed.

Lemma alloc_in_time (n : node) (w : world) : in_time (alloc n w).
Proof. done. Qed.

Lemma get_animal_name_in_time (l : loc) (w : world) :
  in_time (get_animal_name l w).
Proof.
  unfold get_animal_name. apply bind_in_time; [apply load_in_time|].
  by intros [] w' _.
Qed.

Lemma get_parent_in_time (l : loc) (w : world) : in_time (get_parent l w).
Proof.
  unfold get_parent. apply bind_in_time; [apply load_in_time|]. by intros.
Qed.

Lemma set_parent_in_time (l : loc) (p : option loc) (w : world) :
  in_time (set_parent l p w).
Proof.
  unfold set_parent. apply bind_in_time; [apply load_in_time|]. by intros.
Qed.

Lemma set_negative_in_time (l v : loc) (w : world) : in_time (set_negative l v w).
Proof.
  unfold set_negative. apply bind_in_time; [apply load_in_time|].
  by intros [] w' _.
Qed.

Lemma set_positive_in_time (l v : loc) (w : world) : in_time (set_positive l v w).
Proof.
  unfold set_positive. apply bind_in_time; [apply load_in_time|].
  by intros [] w' _.
Qed.

Lemma node_eq_in_time (fuel : nat) (h : heap) (x y : loc) :
  in_time (node_eq fuel h x y).
Proof.
  unfold in_time. revert x y. induction fuel as [|fuel IH]; intros x y; [done|].
  unfold node_eq; fold node_eq.
  repeat case_match; simplify_eq; try done; try apply IH.
  all: intros [= ->]; by eapply IH.
Qed.

Lemma py_eq_in_time (a b : loc) (w : world) : in_time (py_eq a b w).
Proof.
  unfold py_eq. pose proof (node_eq_in_time recursion_limit (heap_of w) a b) as H.
  destruct (node_eq recursion_limit (heap_of w) a b) as [r|e]; [done|].
  intros [= ->]. by apply H.
Qed.

Lemma get_yes_or_no_in_time (q : string) (w : world) :
  in_time (get_yes_or_no q w).
Proof. apply returns_or_eof_in_time, get_yes_or_no_total. Qed.

Lemma add_new_question_in_time (g : loc) (w : world) :
  in_time (add_new_question g w).
Proof.
  unfold add_new_question.
  apply bind_in_time; [apply get_animal_name_in_time|]. intros name w0 _.
  apply bind_in_time; [apply print_in_time|]. intros _ w1 _.
  apply bind_in_time; [apply print_colored_in_time|]. intros _ w2 _.
  apply bind_in_time; [apply print_in_time|]. intros _ w3 _.
  apply bind_in_time;
    [apply returns_or_eof_in_time, get_new_animal_name_total|].
  intros newname w4 _.
  apply bind_in_time; [apply returns_or_eof_in_time, get_question_total|].
  intros q w5 _.
  apply bind_in_time; [apply alloc_in_time|]. intros ng w6 _.
  apply bind_in_time; [apply alloc_in_time|]. intros nq w7 _.
  apply bind_in_time; [apply get_parent_in_time|]. intros pg w8 _.
  apply bind_in_time.
  { destruct pg as [p|]; [|done].
    apply bind_in_time; [apply load_in_time|]. intros [|pp pq x y] w9 _; [done|].
    apply bind_in_time; [apply py_eq_in_time|].
    intros [] w10 _; [apply set_negative_in_time|].
    apply bind_in_time; [apply py_eq_in_time|].
    intros [] w11 _; [apply set_positive_in_time|done]. }
  intros _ w9 _.
  apply bind_in_time; [apply set_parent_in_time|]. intros _ w10 _.
  apply bind_in_time; [apply set_parent_in_time|]. by intros.
Qed.

Lemma do_guess_in_time (g : loc) (w : world) : in_time (do_guess g w).
Proof.
  unfold do_guess.
  apply bind_in_time; [apply get_animal_name_in_time|]. intros name w0 _.
  apply bind_in_time; [apply get_yes_or_no_in_time|]. intros [] w1 _.
  - apply bind_in_time; [apply print_in_time|]. intros. apply print_colored_in_time.
  - apply bind_in_time; [apply get_parent_in_time|]. intros pg w2 _.
    apply bind_in_time; [apply add_new_question_in_time|]. intros [nq ng] w3 _.
    apply bind_in_time; [by destruct (bool_decide _)|]. by intros.
Qed.

Lemma do_question_in_time (q : loc) (w : world) : in_time (do_question q w).
Proof.
  unfold do_question. apply bind_in_time; [apply load_in_time|].
  intros [|p text x y] w0 _; [done|].
  apply bind_in_time; [apply get_yes_or_no_in_time|]. by intros [] w1 _.
Qed.

(** The recursion of [play] is never deeper than its fuel. *)
Lemma play_rec_fuel (fuel : nat) (node : loc) (w : world) :
  length (stdin w) < fuel → in_time (play_rec fuel node w).
Proof.
  revert node w. induction fuel as [|fuel IH]; intros node w Hlen; [lia|].
  cbn [play_rec]. apply bind_in_time; [done|].
  intros h w0 [= <- <-].
  destruct (heap_of w !! node) as [[pg name|p text x y]|].
  - apply do_guess_in_time.
  - apply bind_in_time; [apply do_question_in_time|]. intros next w1 Hq.
    apply IH. apply do_question_inv in Hq as (p' & t' & x' & y' & yes & _ & Hy & _).
    apply get_yes_or_no_quiet in Hy as [_ Hlt]. lia.
  - apply print_in_time.
Qed.

Lemma play_in_time (node : loc) (w : world) : in_time (play node w).
Proof. apply play_rec_fuel. lia. Qed.

Lemma main_in_time (w : world) : in_time (main w).
Proof.
  unfold main.
  apply bind_in_time; [apply print_in_time|]. intros _ w1 _.
  apply bind_in_time; [apply print_in_time|]. intros _ w2 _.
  apply bind_in_time; [apply print_in_time|]. intros _ w3 _.
  apply bind_in_time; [done|]. intros root w4 _. apply play_in_time.
Qed.

(** * The properties of the specification *)

(** ** Traversal *)

Lemma reads_as_Forall2 (lines : list string) (answers : list bool) :
  reads_as <$> lines = Some <$> answers →
  Forall2 (λ line yes, reads_as line = Some yes) lines answers.
Proof.
  revert answers. induction lines as [|line lines IH]; intros [|yes answers] H;
    try discriminate; [constructor|].
  injection H as Hline H. constructor; [done|by apply IH].
Qed.

Lemma follow_guess (h : heap) (answers : list bool) :
  ∀ (node : loc) (path : list loc) (g : loc),
    follow h node answers = Some (path, g) →
    ∃ pg name, h !! g = Some (Guess pg name).
Proof.
  induction answers as [|yes answers IH]; intros node path g H; cbn [follow] in H.
  - destruct (h !! node) as [[pg name|p text x y]|] eqn:Hn; [|done|done].
    injection H as <- <-. eauto.
  - destruct (h !! node) as [[pg name|p text x y]|] eqn:Hn; [done| |done].
    destruct (follow h (if yes then x else y) answers) as [[path' g']|] eqn:Hf;
      [|done].
    injection H as <- <-. by eapply IH.
Qed.

(** C5.  Traversal correctness.  Let the user's first lines read as the
    answers [answers], and let [path] be the questions passed and [g] the
    guess reached when, from [node], the positive child is taken on every
    yes and the negative child on every no ([follow]).  Then a round played
    from [node] asks exactly the questions of [path], in that order, reads
    exactly those lines, changes neither the store nor the root, and goes on
    as the guess at [g] does; and [g] holds a guess. *)
Theorem play_follows_answers (h : heap) (r node : loc) (lines rest : list string)
    (tr : list event) (answers : list bool) (path : list loc) (g : loc) :
  reads_as <$> lines = Some <$> answers →
  follow h node answers = Some (path, g) →
  play node (World h r (lines ++ rest) tr)
  = do_guess g (World h r rest (tr ++ asked h path))
  ∧ ∃ pg name, h !! g = Some (Guess pg name).
Proof.
  intros Hlines Hfollow. split; [|by eapply follow_guess].
  unfold play, with_fuel. apply (play_rec_follows answers).
  - cbn [stdin]. rewrite length_app. lia.
  - by apply reads_as_Forall2.
  - exact Hfollow.
Qed.

Lemma play_follows_answers_witness :
  reads_as <$> ["Y"; "no"] = Some <$> [true; false] ∧
  follow zoo 2 [true; false] = Some ([2; 4], 1) ∧
  (play 2 (World zoo 2 (["Y"; "no"] ++ ["yes"]) [])
   = do_guess 1 (World zoo 2 ["yes"] ([] ++ asked zoo [2; 4]))
   ∧ ∃ pg name, zoo !! 1 = Some (Guess pg name)).
Proof.
  split; [reflexivity|]. split; [reflexivity|].
  apply (play_follows_answers zoo 2 2 ["Y"; "no"] ["yes"] [] [true; false] [2; 4] 1);
    reflexivity.
Defined.

(** ** The lesson *)

(** C6.  The polarity of a lesson.  Whenever the lesson at the guess [g]
    returns, the store has two new objects: the guess [ng], which holds the
    animal the user named and confirmed, and the question [nq], whose positive
    child is [ng] and whose negative child is the old guess [g]. *)
Theorem new_question_polarity (g nq ng : loc) (w w' : world) :
  parent_known (heap_of w) g = true →
  add_new_question g w = Ok ((nq, ng), w') →
  ∃ pg name line rest q,
    heap_of w !! g = Some (Guess pg name) ∧
    heap_of w !! ng = None ∧ heap_of w !! nq = None ∧
    confirmed line (stdin w) rest ∧
    heap_of w' !! ng = Some (Guess (Some nq) (lower (strip line))) ∧
    heap_of w' !! nq = Some (Question None q ng g).
Proof.
  intros Hpk H.
  apply add_new_question_nodes in H
    as (pg & name & newname & q & mid & Hg & -> & -> & (line & Hc & -> & _) & _
        & Hnq & Hng & _); [|done].
  exists pg, name, line, mid, q.
  split; [done|]. split; [by apply lookup_ge_None_2|].
  split; [apply lookup_ge_None_2; lia|]. done.
Qed.

Lemma new_question_polarity_witness :
  ∃ w', parent_known cat_dog 0 = true ∧
        add_new_question 0 (World cat_dog 2 ["Cow"; "y"; "it moos"; "y"] [])
        = Ok ((4, 3), w') ∧
        ∃ pg name line rest q,
          cat_dog !! 0 = Some (Guess pg name) ∧
          cat_dog !! 3 = None ∧ cat_dog !! 4 = None ∧
          confirmed line ["Cow"; "y"; "it moos"; "y"] rest ∧
          heap_of w' !! 3 = Some (Guess (Some 4) (lower (strip line))) ∧
          heap_of w' !! 4 = Some (Question None q 3 0).
Proof.
  eexists. split; [reflexivity|]. split; [vm_compute; reflexivity|].
  apply (new_question_polarity 0 4 3
           (World cat_dog 2 ["Cow"; "y"; "it moos"; "y"] []));
    vm_compute; reflexivity.
Defined.

(** C7.  Root replacement.  When the guess [g] has no parent and the user
    says no to it, the new question is the root of the tree afterwards; it
    has no parent, the old guess [g] is its negative child and the guess for
    the new animal its positive child, and nothing else of the store is
    touched. *)
Theorem root_replacement (g : loc) (name : string) (w w1 w' : world) :
  heap_of w !! g = Some (Guess None name) →
  get_yes_or_no ("Is your animal a " +:+ name +:+ "?") w = Ok (false, w1) →
  do_guess g w = Ok (tt, w') →
  ∃ newname q,
    root_node w' = S (length (heap_of w)) ∧
    heap_of w' !! root_node w'
    = Some (Question None q (length (heap_of w)) g) ∧
    heap_of w'
    = <[g := Guess (Some (root_node w')) name]> (heap_of w)
      ++ [Guess (Some (root_node w')) newname;
          Question None q (length (heap_of w)) g].
Proof.
  intros Hg Hno H.
  apply do_guess_inv in H as (pg & name' & yes & w1' & Hg' & Hy & H).
  rewrite Hg in Hg'. injection Hg' as <- <-.
  rewrite Hno in Hy. injection Hy as <- <-.
  destruct H as (nq & ng & w2 & Ha & Hh & _ & Hr & _).
  rewrite bool_decide_eq_true_2 in Hr by done.
  apply get_yes_or_no_inv in Hno as [Hq1 _].
  apply add_new_question_inv in Ha
    as (pg & name' & newname & q & h3 & w3 & mid & Hg1 & -> & -> & _ & _ & Hrw & _ & ->).
  rewrite (quiet_heap _ _ Hq1) in Hg1, Hrw, Hr. rewrite Hg in Hg1.
  injection Hg1 as <- <-.
  inversion Hrw; subst h3. clear Hrw.
  change (heap_of (with_heap ?h _)) with h in Hh.
  rewrite (quiet_heap _ _ Hq1) in Hh.
  assert (Hglt : g < length (heap_of w)) by by eapply lookup_lt_Some.
  assert (Hheap : heap_of w'
    = <[g := Guess (Some (S (length (heap_of w)))) name]> (heap_of w)
      ++ [Guess (Some (S (length (heap_of w)))) newname;
          Question None q (length (heap_of w)) g]).
  { rewrite Hh. rewrite (insert_app_r_alt _ _ (length (heap_of w))) by lia.
    rewrite Nat.sub_diag. cbn [insert list_insert].
    by rewrite insert_app_l by lia. }
  exists newname, q. rewrite Hr. split; [done|]. split; [|done].
  rewrite Hheap, lookup_app_r; rewrite length_insert; [|lia].
  by replace (S (length (heap_of w)) - length (heap_of w)) with 1 by lia.
Qed.

Lemma root_replacement_witness :
  ∃ w1 w',
    [Guess None "dog"] !! 0 = Some (Guess None "dog") ∧
    get_yes_or_no ("Is your animal a " +:+ "dog" +:+ "?")
      (boot None ["no"; "cat"; "y"; "Does it meow"; "y"]) = Ok (false, w1) ∧
    do_guess 0 (boot None ["no"; "cat"; "y"; "Does it meow"; "y"]) = Ok (tt, w') ∧
    ∃ newname q,
      root_node w' = 2 ∧
      heap_of w' !! root_node w' = Some (Question None q 1 0) ∧
      heap_of w'
      = <[0 := Guess (Some (root_node w')) "dog"]> [Guess None "dog"]
        ++ [Guess (Some (root_node w')) newname; Question None q 1 0].
Proof.
  eexists _, _. split; [reflexivity|].
  split; [vm_compute; reflexivity|]. split; [vm_compute; reflexivity|].
  eapply (root_replacement 0 "dog"
            (boot None ["no"; "cat"; "y"; "Does it meow"; "y"]));
    vm_compute; reflexivity.
Defined.

(** ** Saving *)

(** C8.  A round saves if and only if it teaches.  Let the lines lead from
    [node] to the guess [g] ([reaches]) and let [yes] be the answer the lines
    left hold for it ([answer_in]).  When the round returns and the answer is
    yes, the store and the root are as before and nothing was saved.  When
    the round returns and the answer is no, the lesson ran on the store as it
    was, from the lines after that no, the store has two more objects, and
    after the lesson exactly one save was made, of the root and the store at
    the end of the round. *)
Theorem round_saves_iff_taught (depth : nat) (node g : loc) (w w' : world)
    (yes : bool) (rest rest' : list string) :
  reaches depth (heap_of w) node (stdin w) = Some (g, rest) →
  answer_in rest = Some (yes, rest') →
  play node w = Ok (tt, w') →
  if yes then
    heap_of w' = heap_of w ∧ root_node w' = root_node w ∧ saves w' = saves w
  else
    (∃ nq ng w1 w2,
       heap_of w1 = heap_of w ∧ stdin w1 = rest' ∧
       add_new_question g w1 = Ok ((nq, ng), w2) ∧
       heap_of w' = heap_of w2 ∧ stdin w' = stdin w2) ∧
    length (heap_of w') = 2 + length (heap_of w) ∧
    saves w' = saves w ++ [(root_node w', heap_of w')].
Proof.
  unfold play, with_fuel. intros Hr Ha H.
  destruct (play_rec_reaches _ _ _ _ _ _ _ _ H Hr) as (w0 & Hq0 & Hs0 & Hg).
  apply do_guess_inv in Hg as (pg & name & yes' & w1 & Hg & Hy & H').
  pose proof (get_yes_or_no_answer_in _ _ _ _ Hy) as Ha'.
  rewrite Hs0, Ha in Ha'. injection Ha' as <- ->.
  destruct yes.
  - pose proof (quiet_trans _ _ _ Hq0 H') as Hq. split; [|split]; apply Hq.
  - destruct H' as (nq & ng & w2 & Hadd & Hh & Hs & _ & Hsv).
    apply get_yes_or_no_inv in Hy as [Hq1 _].
    split.
    { exists nq, ng, w1, w2. split; [|done].
      by rewrite (quiet_heap _ _ Hq1), (quiet_heap _ _ Hq0). }
    apply add_new_question_inv in Hadd
      as (pg' & name' & newname & q & h3 & w3 & mid & _ & _ & _ & _ & _ & Hrw & _ & Hw2).
    split.
    + rewrite Hh, Hw2. change (heap_of (with_heap ?h _)) with h.
      rewrite !length_insert, (rewired_length _ _ _ _ _ Hrw), length_app.
      rewrite (quiet_heap _ _ Hq1), (quiet_heap _ _ Hq0). cbn. lia.
    + by rewrite Hsv, (quiet_saves _ _ Hq0).
Qed.

Lemma round_saves_iff_taught_witness :
  (∃ w',
     reaches 3 zoo 2 ["Y"; "what?"; "no"; "nope"; "n"; "cow"; "y"; "it moos"; "y"]
     = Some (1, ["nope"; "n"; "cow"; "y"; "it moos"; "y"]) ∧
     answer_in ["nope"; "n"; "cow"; "y"; "it moos"; "y"]
     = Some (false, ["cow"; "y"; "it moos"; "y"]) ∧
     play 2 (World zoo 2
               ["Y"; "what?"; "no"; "nope"; "n"; "cow"; "y"; "it moos"; "y"] [])
     = Ok (tt, w') ∧
     (∃ nq ng w1 w2,
        heap_of w1 = zoo ∧ stdin w1 = ["cow"; "y"; "it moos"; "y"] ∧
        add_new_question 1 w1 = Ok ((nq, ng), w2) ∧
        heap_of w' = heap_of w2 ∧ stdin w' = stdin w2) ∧
     length (heap_of w') = 2 + length zoo ∧
     saves w' = [] ++ [(root_node w', heap_of w')]) ∧
  (∃ w',
     reaches 3 zoo 2 ["Y"; "no"; "maybe"; "yes"] = Some (1, ["maybe"; "yes"]) ∧
     answer_in ["maybe"; "yes"] = Some (true, []) ∧
     play 2 (World zoo 2 ["Y"; "no"; "maybe"; "yes"] []) = Ok (tt, w') ∧
     heap_of w' = zoo ∧ root_node w' = 2 ∧ saves w' = []).
Proof.
  split.
  - eexists. split; [reflexivity|]. split; [reflexivity|].
    split; [vm_compute; reflexivity|].
    apply (round_saves_iff_taught 3 2 1
             (World zoo 2
                ["Y"; "what?"; "no"; "nope"; "n"; "cow"; "y"; "it moos"; "y"] [])
             _ false ["nope"; "n"; "cow"; "y"; "it moos"; "y"]
             ["cow"; "y"; "it moos"; "y"]);
      [reflexivity | reflexivity | vm_compute; reflexivity].
  - eexists. split; [reflexivity|]. split; [reflexivity|].
    split; [vm_compute; reflexivity|].
    apply (round_saves_iff_taught 3 2 1
             (World zoo 2 ["Y"; "no"; "maybe"; "yes"] [])
             _ true ["maybe"; "yes"] []);
      [reflexivity | reflexivity | vm_compute; reflexivity].
Defined.

(** ** The text of the new question *)

(** C10.  Let the dialogue for the animal settle on [name_line] and, from
    the lines after it, the dialogue for the question on [line]
    ([confirmed_name], [confirmed_question]: the first line given that the
    user then says yes to).  Whenever the lesson returns it has read exactly
    these lines, and the text stored in the new question is made of [line]:
    the line trimmed, every character in lower case, then the first
    character in upper case, then at most one question mark taken from the
    end.  When the line is ASCII, behind the first character every
    character of the stored text is the lower-case form of the character of
    the trimmed line at the same place, so no upper-case letter is left
    there, and the stored text is ASCII. *)
Theorem stored_question_text (g nq ng : loc) (w w' : world)
    (name_line line : string) (mid rest : list string) :
  parent_known (heap_of w) g = true →
  confirmed_name (stdin w) = Some (name_line, mid) →
  confirmed_question mid = Some (line, rest) →
  add_new_question g w = Ok ((nq, ng), w') →
  stdin w' = rest ∧
  heap_of w' !! nq = Some (Question None (stored_text line) ng g) ∧
  (ascii_text line = true →
   ascii_text (stored_text line) = true ∧
   ∀ i c, String.get (S i) (stored_text line) = Some c →
          isupper c = false ∧
          ∃ c0, String.get (S i) (strip line) = Some c0 ∧ c = to_lower c0).
Proof.
  intros Hpk Hname Htext H.
  apply add_new_question_text in H
    as (name_line' & line' & mid' & Hname' & Htext' & Hnq & _); [|done].
  rewrite Hname in Hname'. injection Hname' as <- <-.
  rewrite Htext in Htext'. injection Htext' as <- ->.
  split; [done|]. split; [by rewrite <- question_text_stored_text|].
  intros Hascii. split.
  { rewrite <- question_text_stored_text. by apply ascii_text_question_text. }
  intros i c Hi. apply stored_text_tail in Hi as (c0 & Hc0 & ->).
  split; [apply isupper_to_lower|]. by exists c0.
Qed.

Lemma stored_question_text_witness :
  ∃ w',
    parent_known cat_dog 0 = true ∧
    confirmed_name second_try
    = Some (" COW  ", [""; "is it big"; "hm"; "n"; "  does IT Moo??"; "y"; "rest"]) ∧
    confirmed_question [""; "is it big"; "hm"; "n"; "  does IT Moo??"; "y"; "rest"]
    = Some ("  does IT Moo??", ["rest"]) ∧
    add_new_question 0 (World cat_dog 2 second_try []) = Ok ((4, 3), w') ∧
    ascii_text "  does IT Moo??" = true ∧
    stored_text "  does IT Moo??" = "Does it moo?" ∧
    (stdin w' = ["rest"] ∧
     heap_of w' !! 4 = Some (Question None (stored_text "  does IT Moo??") 3 0) ∧
     (ascii_text "  does IT Moo??" = true →
      ascii_text (stored_text "  does IT Moo??") = true ∧
      ∀ i c, String.get (S i) (stored_text "  does IT Moo??") = Some c →
             isupper c = false ∧
             ∃ c0, String.get (S i) (strip "  does IT Moo??") = Some c0 ∧
                   c = to_lower c0)).
Proof.
  eexists. split; [reflexivity|]. split; [vm_compute; reflexivity|].
  split; [vm_compute; reflexivity|]. split; [vm_compute; reflexivity|].
  split; [reflexivity|]. split; [reflexivity|].
  apply (stored_question_text 0 4 3 (World cat_dog 2 second_try []) _ " COW  "
           "  does IT Moo??"
           [""; "is it big"; "hm"; "n"; "  does IT Moo??"; "y"; "rest"] ["rest"]);
    vm_compute; reflexivity.
Defined.

(** C4, as the claim is worded, fails.  The user's question ends in two
    question marks: the stored text ends in one.  The user's question is a
    question mark alone: the stored text is empty.  The user's question has
    a blank before its question mark: the stored text ends in the blank. *)
Lemma question_text_counterexample :
  (∃ w' q,
     add_new_question 0 (boot None ["cat"; "y"; "Does it meow??"; "y"])
     = Ok ((2, 1), w') ∧
     heap_of w' !! 2 = Some (Question None q 1 0) ∧
     last_char q = Some question_mark) ∧
  (∃ w' q,
     add_new_question 0 (boot None ["cat"; "y"; "?"; "y"]) = Ok ((2, 1), w') ∧
     heap_of w' !! 2 = Some (Question None q 1 0) ∧
     q = EmptyString) ∧
  (∃ w' q,
     add_new_question 0 (boot None ["cat"; "y"; "Does it meow ?"; "y"])
     = Ok ((2, 1), w') ∧
     heap_of w' !! 2 = Some (Question None q 1 0) ∧
     strip q ≠ q).
Proof.
  split; [|split]; eexists _, _.
  - split; [vm_compute; reflexivity|]. split; [reflexivity|]. reflexivity.
  - split; [vm_compute; reflexivity|]. split; [reflexivity|]. reflexivity.
  - split; [vm_compute; reflexivity|]. split; [reflexivity|]. vm_compute.
    discriminate.
Qed.

(** C4, amended.  Let the dialogue for the animal settle on [name_line] and,
    from the lines after it, the dialogue for the question on [line], and
    let the trimmed line end cleanly: it is not a question mark alone and has
    no white space just before a question mark at its end.  Whenever the
    lesson returns, the text stored in the new question is the trimmed line
    in lower case with the first character in upper case, without exactly
    one question mark at its end when it has one; the stored text is
    trimmed and is not empty, and it ends in a question mark exactly when the
    trimmed line ended in two question marks or more. *)
Theorem question_text_trimmed (g nq ng : loc) (w w' : world)
    (name_line line : string) (mid rest : list string) :
  parent_known (heap_of w) g = true →
  confirmed_name (stdin w) = Some (name_line, mid) →
  confirmed_question mid = Some (line, rest) →
  clean_ending (strip line) = true →
  add_new_question g w = Ok ((nq, ng), w') →
  ∃ q,
    heap_of w' !! nq = Some (Question None q ng g) ∧
    q = without_one_mark (capitalize (lower (strip line))) ∧
    strip q = q ∧ q ≠ EmptyString ∧
    (last_char q = Some question_mark ↔ ends_in_two_marks (strip line) = true).
Proof.
  intros Hpk Hname Htext Hclean H.
  apply add_new_question_text in H
    as (name_line' & line' & mid' & Hname' & Htext' & Hnq & _); [|done].
  rewrite Hname in Hname'. injection Hname' as <- <-.
  rewrite Htext in Htext'. injection Htext' as <- _.
  exists (question_text line). split; [done|]. split.
  - rewrite question_text_stored_text. unfold stored_text.
    by rewrite capitalize_lower.
  - by apply question_text_clean.
Qed.

Lemma question_text_trimmed_witness :
  ∃ w',
    parent_known cat_dog 0 = true ∧
    confirmed_name second_try
    = Some (" COW  ", [""; "is it big"; "hm"; "n"; "  does IT Moo??"; "y"; "rest"]) ∧
    confirmed_question [""; "is it big"; "hm"; "n"; "  does IT Moo??"; "y"; "rest"]
    = Some ("  does IT Moo??", ["rest"]) ∧
    clean_ending (strip "  does IT Moo??") = true ∧
    add_new_question 0 (World cat_dog 2 second_try []) = Ok ((4, 3), w') ∧
    heap_of w' !! 4 = Some (Question None "Does it moo?" 3 0) ∧
    ∃ q,
      heap_of w' !! 4 = Some (Question None q 3 0) ∧
      q = without_one_mark (capitalize (lower (strip "  does IT Moo??"))) ∧
      strip q = q ∧ q ≠ EmptyString ∧
      (last_char q = Some question_mark
       ↔ ends_in_two_marks (strip "  does IT Moo??") = true).
Proof.
  eexists. split; [reflexivity|]. split; [vm_compute; reflexivity|].
  split; [vm_compute; reflexivity|]. split; [reflexivity|].
  split; [vm_compute; reflexivity|]. split; [reflexivity|].
  apply (question_text_trimmed 0 4 3 (World cat_dog 2 second_try []) _ " COW  "
           "  does IT Moo??"
           [""; "is it big"; "hm"; "n"; "  does IT Moo??"; "y"; "rest"] ["rest"]);
    vm_compute; reflexivity.
Defined.

(** ** Which slot of the parent is rewritten *)

(** Two guesses with the same parent reference are equal when their names
    are: [==] does not tell two such objects apart. *)
Lemma node_eq_guesses (n : nat) (h : heap) (a b : loc) (pg : option loc)
    (na nb : string) :
  h !! a = Some (Guess pg na) → h !! b = Some (Guess pg nb) →
  node_eq (S n) h a b = Ok (bool_decide (na = nb)).
Proof.
  intros Ha Hb. unfold node_eq; fold node_eq. rewrite Ha, Hb.
  destruct pg as [p|]; [|done]. by rewrite decide_True.
Qed.

(** A question and a guess are never equal. *)
Lemma node_eq_question_guess (n : nat) (h : heap) (a b : loc)
    (pa pb : option loc) (q name : string) (x y : loc) :
  h !! a = Some (Question pa q x y) → h !! b = Some (Guess pb name) →
  node_eq (S n) h a b = Ok false.
Proof. intros Ha Hb. unfold node_eq; fold node_eq. by rewrite Ha, Hb. Qed.

(** The parent [p] of the old guess after the lesson: the comparisons of
    lines 157 and 159 decide which of its slots holds the new question. *)
Lemma add_new_question_parent (g p nq ng : loc) (name pq : string)
    (pp : option loc) (x y : loc) (w w' : world) :
  heap_of w !! g = Some (Guess (Some p) name) →
  heap_of w !! p = Some (Question pp pq x y) →
  add_new_question g w = Ok ((nq, ng), w') →
  ∃ h2, (∀ l n, heap_of w !! l = Some n → h2 !! l = Some n) ∧
    ((node_eq recursion_limit h2 y g = Ok true ∧
      heap_of w' !! p = Some (Question pp pq x nq)) ∨
     (node_eq recursion_limit h2 y g = Ok false ∧
      node_eq recursion_limit h2 x g = Ok true ∧
      heap_of w' !! p = Some (Question pp pq nq y)) ∨
     (node_eq recursion_limit h2 y g = Ok false ∧
      node_eq recursion_limit h2 x g = Ok false ∧
      heap_of w' !! p = Some (Question pp pq x y))).
Proof.
  intros Hg Hp H.
  apply add_new_question_inv in H
    as (pg & name' & newname & q & h3 & w3 & mid & Hg' & -> & -> & _ & _ & Hrw & _ & ->).
  rewrite Hg in Hg'. injection Hg' as <- <-.
  set (h2 := heap_of w ++ [_; _]) in *.
  assert (Hold : ∀ l n, heap_of w !! l = Some n → h2 !! l = Some n).
  { intros l n Hl. unfold h2. rewrite lookup_app_l; [done|].
    by eapply lookup_lt_Some. }
  exists h2. split; [done|].
  assert (Hplt : p < length (heap_of w)) by by eapply lookup_lt_Some.
  assert (Hpg : p ≠ g) by (intros ->; congruence).
  assert (Hp3 : ∀ n, h3 !! p = Some n →
            heap_of (with_heap (<[g:=Guess (Some (S (length (heap_of w)))) name]>
              (<[length (heap_of w):=Guess (Some (S (length (heap_of w)))) newname]> h3))
              w3) !! p = Some n).
  { intros n Hn. change (heap_of (with_heap ?h _)) with h.
    by rewrite !list_lookup_insert_ne by lia. }
  assert (Hlen2 : length h2 = 2 + length (heap_of w)).
  { unfold h2. rewrite length_app. cbn. lia. }
  pose proof (Hold _ _ Hp) as Hp2.
  inversion Hrw as [|p0 pp0 a0 Hp0|p0 pp0 q0 x0 y0 Hp0 Hy|p0 pp0 q0 x0 y0 Hp0 Hy Hx
                    |p0 pp0 q0 x0 y0 Hp0 Hy Hx]; subst.
  - congruence.
  - rewrite Hp2 in Hp0. injection Hp0 as <- <- <- <-.
    left. split; [assumption|]. apply Hp3. apply list_lookup_insert_eq. lia.
  - rewrite Hp2 in Hp0. injection Hp0 as <- <- <- <-.
    right. left. split; [assumption|]. split; [assumption|].
    apply Hp3. apply list_lookup_insert_eq. lia.
  - rewrite Hp2 in Hp0. injection Hp0 as <- <- <- <-.
    right. right. split; [assumption|]. split; [assumption|].
    apply Hp3. assumption.
Qed.

(** The old guess in the negative slot: the negative slot is rewritten. *)
Lemma lesson_at_negative_child (g p nq ng : loc) (name pq : string)
    (pp : option loc) (x : loc) (w w' : world) :
  heap_of w !! g = Some (Guess (Some p) name) →
  heap_of w !! p = Some (Question pp pq x g) →
  add_new_question g w = Ok ((nq, ng), w') →
  heap_of w' !! p = Some (Question pp pq x nq).
Proof.
  intros Hg Hp H.
  destruct (add_new_question_parent _ _ _ _ _ _ _ _ _ _ _ Hg Hp H)
    as (h2 & Hold & [[_ Hr] | [[Hy _] | [Hy _]]]); [done| |].
  - unfold recursion_limit in Hy.
    rewrite (node_eq_guesses _ _ _ _ _ _ _ (Hold _ _ Hg) (Hold _ _ Hg)) in Hy.
    by rewrite bool_decide_eq_true_2 in Hy.
  - unfold recursion_limit in Hy.
    rewrite (node_eq_guesses _ _ _ _ _ _ _ (Hold _ _ Hg) (Hold _ _ Hg)) in Hy.
    by rewrite bool_decide_eq_true_2 in Hy.
Qed.

(** The old guess in the positive slot, next to a question or to a guess of
    another name: the positive slot is rewritten. *)
Lemma lesson_at_positive_child (g p nq ng : loc) (name pq : string)
    (pp : option loc) (y : loc) (sibling : node) (w w' : world) :
  heap_of w !! g = Some (Guess (Some p) name) →
  heap_of w !! p = Some (Question pp pq g y) →
  heap_of w !! y = Some sibling →
  match sibling with
  | Guess py other => py = Some p ∧ other ≠ name
  | Question _ _ _ _ => True
  end →
  add_new_question g w = Ok ((nq, ng), w') →
  heap_of w' !! p = Some (Question pp pq nq y).
Proof.
  intros Hg Hp Hy Hsib H.
  assert (Hneq : ∀ h2, (∀ l n, heap_of w !! l = Some n → h2 !! l = Some n) →
                       node_eq recursion_limit h2 y g = Ok false).
  { intros h2 Hold. unfold recursion_limit.
    destruct sibling as [py other|py qy xy yy].
    - destruct Hsib as [-> Hne].
      rewrite (node_eq_guesses _ _ _ _ _ _ _ (Hold _ _ Hy) (Hold _ _ Hg)).
      by rewrite bool_decide_eq_false_2.
    - by rewrite (node_eq_question_guess _ _ _ _ _ _ _ _ _ _
                    (Hold _ _ Hy) (Hold _ _ Hg)). }
  destruct (add_new_question_parent _ _ _ _ _ _ _ _ _ _ _ Hg Hp H)
    as (h2 & Hold & [[Hy' _] | [(_ & _ & Hr) | (_ & Hx & _)]]); [|done|].
  - rewrite (Hneq h2 Hold) in Hy'. discriminate.
  - unfold recursion_limit in Hx.
    rewrite (node_eq_guesses _ _ _ _ _ _ _ (Hold _ _ Hg) (Hold _ _ Hg)) in Hx.
    by rewrite bool_decide_eq_true_2 in Hx.
Qed.

(** The old guess in the positive slot, next to another guess of the same
    name: the negative slot is rewritten, and the positive slot still holds
    the old guess. *)
Lemma lesson_at_positive_child_of_twins (g p nq ng : loc) (name pq : string)
    (pp : option loc) (y : loc) (w w' : world) :
  heap_of w !! g = Some (Guess (Some p) name) →
  heap_of w !! p = Some (Question pp pq g y) →
  heap_of w !! y = Some (Guess (Some p) name) →
  add_new_question g w = Ok ((nq, ng), w') →
  heap_of w' !! p = Some (Question pp pq g nq).
Proof.
  intros Hg Hp Hy H.
  destruct (add_new_question_parent _ _ _ _ _ _ _ _ _ _ _ Hg Hp H)
    as (h2 & Hold & [[_ Hr] | [[Hy' _] | [Hy' _]]]); [done| |].
  - unfold recursion_limit in Hy'.
    rewrite (node_eq_guesses _ _ _ _ _ _ _ (Hold _ _ Hy) (Hold _ _ Hg)) in Hy'.
    by rewrite bool_decide_eq_true_2 in Hy'.
  - unfold recursion_limit in Hy'.
    rewrite (node_eq_guesses _ _ _ _ _ _ _ (Hold _ _ Hy) (Hold _ _ Hg)) in Hy'.
    by rewrite bool_decide_eq_true_2 in Hy'.
Qed.

(** C2.  The old guess is looked for in the two slots of its parent with
    [==], and two guesses of one name under one parent are equal for [==].
    In the tree [dog_dog] the positive child of the root is a guess named
    like its negative child.  The user says yes to the question, no to the
    guess, and teaches a cat: the lesson is at the positive child, but it is
    the negative slot of the root that holds the new question afterwards.
    The positive slot still holds the old guess, which is now also the
    negative child of the new question, and the old negative child is out of
    the tree. *)
Theorem lesson_rewrites_wrong_slot :
  well_formed dog_dog 2 = true ∧
  follow dog_dog 2 [true] = Some ([2], 1) ∧
  dog_dog !! 2 = Some (Question None "Is it big" 1 0) ∧
  ∃ w',
    play 2 (World dog_dog 2 ["yes"; "no"; "cat"; "y"; "it meows"; "y"] [])
    = Ok (tt, w') ∧
    heap_of w' !! 2 = Some (Question None "Is it big" 1 4) ∧
    heap_of w' !! 4 = Some (Question None "It meows" 3 1) ∧
    nodes_below (length (heap_of w')) (heap_of w') (root_node w')
    = Some [2; 1; 4; 3; 1] ∧
    well_formed (heap_of w') (root_node w') = false.
Proof.
  split; [reflexivity|]. split; [reflexivity|]. split; [reflexivity|].
  eexists. split; [vm_compute; reflexivity|].
  split; [reflexivity|]. split; [reflexivity|]. split; reflexivity.
Qed.

(** The tree [dog_dog] is one the game builds: it is what the first session
    saves when the user, asked about the dog, names a dog. *)
Lemma dog_dog_is_saved :
  ∃ w', main (boot None ["n"; "Dog"; "y"; "is it big?"; "y"]) = Ok (tt, w') ∧
        saves w' = [(2, dog_dog)].
Proof. eexists. split; [vm_compute; reflexivity|reflexivity]. Qed.

(** C1.  Parent links after a lesson.  In the tree [cat_dog] the user says
    no to the question, no to the dog, and teaches a cow.  The new question
    is the negative child of the root afterwards, and its parent reference is
    [None]: the lesson sets the parent of the new guess and of the old guess
    and leaves the parent of the new question as it was constructed. *)
Theorem lesson_leaves_parent_unset :
  well_formed cat_dog 2 = true ∧
  ∃ w',
    play 2 (World cat_dog 2 ["no"; "no"; "cow"; "y"; "it moos"; "y"] [])
    = Ok (tt, w') ∧
    root_node w' = 2 ∧
    heap_of w' !! 2 = Some (Question None "Does it meow" 1 4) ∧
    heap_of w' !! 4 = Some (Question None "It moos" 3 0) ∧
    parent_at (heap_of w') 4 = Some None ∧
    children_point_back (heap_of w') 2 = false ∧
    children_point_back (heap_of w') 4 = true ∧
    well_formed (heap_of w') (root_node w') = false.
Proof.
  split; [reflexivity|].
  eexists. split; [vm_compute; reflexivity|].
  repeat (split; [reflexivity|]). reflexivity.
Qed.

(** The same for every lesson below a question: the new question is put into
    a slot of the parent, and its own parent reference is [None]. *)
Lemma lesson_below_question_parent_unset (g p nq ng : loc) (name pq : string)
    (pp : option loc) (x : loc) (w w' : world) :
  heap_of w !! g = Some (Guess (Some p) name) →
  heap_of w !! p = Some (Question pp pq x g) →
  add_new_question g w = Ok ((nq, ng), w') →
  heap_of w' !! p = Some (Question pp pq x nq) ∧
  parent_at (heap_of w') nq = Some None.
Proof.
  intros Hg Hp H. split; [by eapply lesson_at_negative_child|].
  assert (Hpk : parent_known (heap_of w) g = true).
  { unfold parent_known. rewrite Hg. cbn. apply bool_decide_eq_true_2.
    by eapply lookup_lt_Some. }
  apply add_new_question_nodes in H
    as (pg & n' & newname & q & mid & _ & _ & _ & _ & _ & Hnq & _); [|done].
  unfold parent_at. by rewrite Hnq.
Qed.

(** ** The yes/no prompt *)

Lemma startswith_yes (a : string) :
  startswith "yes" a = true ↔
  a = EmptyString ∨ a = "y" ∨ a = "ye" ∨ a = "yes".
Proof.
  unfold startswith.
  destruct a as [|c1 [|c2 [|c3 [|c4 a]]]]; cbn;
    repeat (match goal with |- context [ascii_dec ?c ?d] =>
              destruct (ascii_dec c d); subst end; cbn);
    split; intros H; try done; auto;
    repeat (destruct H as [H|H]; try done); try congruence.
Qed.

Lemma startswith_no (a : string) :
  startswith "no" a = true ↔ a = EmptyString ∨ a = "n" ∨ a = "no".
Proof.
  unfold startswith.
  destruct a as [|c1 [|c2 [|c3 a]]]; cbn;
    repeat (match goal with |- context [ascii_dec ?c ?d] =>
              destruct (ascii_dec c d); subst end; cbn);
    split; intros H; try done; auto;
    repeat (destruct H as [H|H]; try done); try congruence.
Qed.

(** What a line reads as: yes when, trimmed and in lower case, it is one of
    "y", "ye", "yes" — or empty; no when it is "n" or "no". *)
Lemma reads_as_yes (line : string) :
  reads_as line = Some true ↔
  lower (strip line) = EmptyString ∨ lower (strip line) = "y" ∨
  lower (strip line) = "ye" ∨ lower (strip line) = "yes".
Proof.
  unfold reads_as. rewrite <- startswith_yes.
  destruct (startswith "yes" (lower (strip line))); [done|].
  by destruct (startswith "no" (lower (strip line))).
Qed.

Lemma reads_as_no (line : string) :
  reads_as line = Some false ↔
  lower (strip line) = "n" ∨ lower (strip line) = "no".
Proof.
  unfold reads_as.
  destruct (startswith "yes" (lower (strip line))) eqn:Hyes.
  - apply startswith_yes in Hyes. split; [done|].
    intros [H|H]; rewrite H in Hyes;
      repeat (destruct Hyes as [Hyes|Hyes]; try done).
  - destruct (startswith "no" (lower (strip line))) eqn:Hno.
    + apply startswith_no in Hno as [Hno|Hno]; [|by split].
      exfalso. assert (startswith "yes" (lower (strip line)) = true); [|congruence].
      apply startswith_yes. by left.
    + split; [done|]. intros H.
      assert (startswith "no" (lower (strip line)) = true); [|congruence].
      apply startswith_no. by right.
Qed.

(** C3.  The prompt on an empty line.  The empty text is a prefix of "yes",
    so an empty line is taken for a yes: the prompt returns true and does not
    ask again. *)
Theorem yes_or_no_empty_line (question : string) (h : heap) (r : loc)
    (rest : list string) (tr : list event) :
  get_yes_or_no question (World h r (EmptyString :: rest) tr)
  = Ok (true, World h r rest (tr ++ [Print (question +:+ " ")])).
Proof. by apply get_yes_or_no_answer. Qed.

(** A blank line is taken for a yes as well, and so a guess is counted as
    right when the user only presses the return key. *)
Lemma blank_line_confirms_guess :
  reads_as "   " = Some true ∧
  ∃ w', main (boot None [EmptyString]) = Ok (tt, w') ∧
        heap_of w' = [Guess None "dog"] ∧ saves w' = [] ∧
        last (trace w') = Some (PrintColored "Yay! I guessed right!" "green").
Proof.
  split; [reflexivity|]. eexists. split; [vm_compute; reflexivity|].
  split; [reflexivity|]. split; reflexivity.
Qed.

(** ** The constructors *)

(** C9, as the claim is worded, fails.  A guess with an empty name, a guess
    with a blank name and a question with an empty text are constructed like
    any other; and the game itself constructs a question with an empty text
    when the user's question is a question mark alone. *)
Lemma constructors_counterexample :
  new_Guess None EmptyString (World [] 0 [] [])
  = Ok (0, World [Guess None EmptyString] 0 [] []) ∧
  strip "  " = EmptyString ∧
  new_Guess None "  " (World [] 0 [] []) = Ok (0, World [Guess None "  "] 0 [] []) ∧
  new_Question None EmptyString 0 0 (World [Guess None "dog"] 0 [] [])
  = Ok (1, World [Guess None "dog"; Question None EmptyString 0 0] 0 [] []) ∧
  ∃ w', main (boot None ["n"; "cat"; "y"; "?"; "y"]) = Ok (tt, w') ∧
        heap_of w' !! root_node w' = Some (Question None EmptyString 1 0).
Proof.
  split; [reflexivity|]. split; [reflexivity|]. split; [reflexivity|].
  split; [reflexivity|]. eexists. split; [vm_compute; reflexivity|reflexivity].
Qed.

(** C9, amended.  The construction of a guess and of a question succeeds
    for every name and every text, the empty one too: the new object gets
    the next free address and holds the arguments as they were given, not
    trimmed and not checked. *)
Theorem constructors_store_arguments (parent : option loc) (text : string)
    (positive negative : loc) (w : world) :
  new_Guess parent text w
  = Ok (length (heap_of w), with_heap (heap_of w ++ [Guess parent text]) w) ∧
  new_Question parent text positive negative w
  = Ok (length (heap_of w),
        with_heap (heap_of w ++ [Question parent text positive negative]) w).
Proof. done. Qed.

(** * Further properties of the code *)

(** ** The yes/no prompt *)

Lemma get_yes_or_no_loop_reject (fuel : nat) (q line : string) (h : heap)
    (r : loc) (rest : list string) (tr : list event) :
  reads_as line = None →
  get_yes_or_no_loop (S fuel) q (World h r (line :: rest) tr)
  = get_yes_or_no_loop fuel q (World h r rest (tr ++ reprompts q [line])).
Proof.
  unfold reads_as. intros H. cbn [get_yes_or_no_loop].
  unfold mbind, M_bind, print, print_end, emit, input.
  cbn [stdin heap_of root_node trace]. rewrite append_empty_r.
  destruct (startswith "yes" (lower (strip line))); [discriminate|].
  destruct (startswith "no" (lower (strip line))); [discriminate|].
  cbn [stdin heap_of root_node trace].
  unfold reprompts. cbn [flat_map app]. by rewrite <- app_assoc.
Qed.

Lemma get_yes_or_no_loop_skips (junk : list string) :
  ∀ (fuel : nat) (q line : string) (b : bool) (h : heap) (r : loc)
    (rest : list string) (tr : list event),
    length junk < fuel →
    Forall (λ l, reads_as l = None) junk →
    reads_as line = Some b →
    get_yes_or_no_loop fuel q (World h r (junk ++ line :: rest) tr)
    = Ok (b, World h r rest (tr ++ reprompts q junk ++ [Print (q +:+ " ")])).
Proof.
  induction junk as [|j junk IH]; intros fuel q line b h r rest tr Hf Hj Hl.
  - destruct fuel as [|fuel]; [cbn in Hf; lia|].
    by apply get_yes_or_no_loop_answer.
  - destruct fuel as [|fuel]; [cbn in Hf; lia|].
    apply Forall_cons in Hj as [Hj Hjunk]. cbn [app].
    rewrite (get_yes_or_no_loop_reject _ _ _ _ _ _ _ Hj).
    rewrite (IH fuel q line b h r rest _); [|cbn in Hf; lia|done|done].
    unfold reprompts. cbn [flat_map]. by rewrite <- !app_assoc.
Qed.

(** X1.  The prompt asks again, with the request to answer yes or no, for
    every line that reads as no answer, and returns what the first line that
    reads as an answer reads as; it reads exactly these lines, and the store
    and the root are as before. *)
Theorem yes_or_no_skips_other_lines (q line : string) (junk rest : list string)
    (b : bool) (h : heap) (r : loc) (tr : list event) :
  Forall (λ l, reads_as l = None) junk →
  reads_as line = Some b →
  get_yes_or_no q (World h r (junk ++ line :: rest) tr)
  = Ok (b, World h r rest (tr ++ reprompts q junk ++ [Print (q +:+ " ")])).
Proof.
  intros Hj Hl. unfold get_yes_or_no, with_fuel. apply get_yes_or_no_loop_skips.
  - cbn [stdin]. rewrite length_app. cbn. lia.
  - exact Hj.
  - exact Hl.
Qed.

Lemma yes_or_no_skips_other_lines_witness :
  Forall (λ l, reads_as l = None) ["maybe"; "yes please"] ∧
  reads_as " NO " = Some false ∧
  get_yes_or_no "Is that right?"
    (World cat_dog 2 (["maybe"; "yes please"] ++ " NO " :: ["cow"]) [])
  = Ok (false,
        World cat_dog 2 ["cow"]
          ([] ++ reprompts "Is that right?" ["maybe"; "yes please"]
              ++ [Print ("Is that right?" +:+ " ")])).
Proof.
  assert (H1 : Forall (λ l, reads_as l = None) ["maybe"; "yes please"]).
  { repeat constructor. }
  split; [exact H1|]. split; [reflexivity|].
  apply (yes_or_no_skips_other_lines "Is that right?" " NO "
           ["maybe"; "yes please"] ["cow"] false cat_dog 2 []);
    [exact H1|reflexivity].
Defined.

(** X2.  The words of an answer.  A line is a yes exactly when, trimmed and
    in lower case, it is "y", "ye" or "yes" or is empty; a no exactly when it
    is "n" or "no"; and every other line, a longer word that begins with
    "yes" or "no" among them, is no answer. *)
Theorem accepted_answers (line : string) :
  let answer := lower (strip line) in
  match reads_as line with
  | Some true =>
      answer = EmptyString ∨ answer = "y" ∨ answer = "ye" ∨ answer = "yes"
  | Some false => answer = "n" ∨ answer = "no"
  | None =>
      answer ≠ EmptyString ∧ answer ≠ "y" ∧ answer ≠ "ye" ∧ answer ≠ "yes" ∧
      answer ≠ "n" ∧ answer ≠ "no"
  end.
Proof.
  cbn zeta. destruct (reads_as line) as [[]|] eqn:H.
  - by apply reads_as_yes.
  - by apply reads_as_no.
  - assert (Hy : reads_as line ≠ Some true) by congruence.
    assert (Hn : reads_as line ≠ Some false) by congruence.
    rewrite reads_as_yes in Hy. rewrite reads_as_no in Hn.
    repeat split; intros E; rewrite E in Hy, Hn;
      solve [apply Hy; auto | apply Hn; auto].
Qed.

(** X3.  The end of the input.  When none of the lines left reads as an
    answer, the prompt ends in [EOFError]. *)
Theorem yes_or_no_end_of_input (q : string) (lines : list string) (h : heap)
    (r : loc) (tr : list event) :
  Forall (λ l, reads_as l = None) lines →
  get_yes_or_no q (World h r lines tr) = Raise EOFError.
Proof.
  unfold get_yes_or_no, with_fuel. cbn [stdin].
  assert (H : ∀ fuel tr', length lines < fuel →
            Forall (λ l, reads_as l = None) lines →
            get_yes_or_no_loop fuel q (World h r lines tr') = Raise EOFError).
  { induction lines as [|l lines IH]; intros fuel tr' Hf Hl.
    - destruct fuel as [|fuel]; [cbn in Hf; lia|]. reflexivity.
    - destruct fuel as [|fuel]; [cbn in Hf; lia|].
      apply Forall_cons in Hl as [Hl Hls].
      rewrite (get_yes_or_no_loop_reject _ _ _ _ _ _ _ Hl).
      apply IH; [cbn in Hf; lia|done]. }
  intros Hl. apply H; [lia|done].
Qed.

Lemma yes_or_no_end_of_input_witness :
  Forall (λ l, reads_as l = None) ["nope"; "yess"] ∧
  get_yes_or_no "Is that right?" (World cat_dog 2 ["nope"; "yess"] [])
  = Raise EOFError.
Proof.
  assert (H1 : Forall (λ l, reads_as l = None) ["nope"; "yess"]).
  { repeat constructor. }
  split; [exact H1|].
  apply (yes_or_no_end_of_input "Is that right?" ["nope"; "yess"] cat_dog 2 []).
  exact H1.
Defined.

(** ** The name of the new animal *)

Lemma first_char_lower (s : string) :
  first_char (lower s) = to_lower <$> first_char s.
Proof. by destruct s. Qed.

Lemma trimmed_lower (s : string) : trimmed s → trimmed (lower s).
Proof.
  intros [Hf Hl]. split.
  - intros c. rewrite first_char_lower.
    destruct (first_char s) as [a|]; [|done]. intros [= <-].
    rewrite isspace_to_lower. by apply Hf.
  - intros c. rewrite last_char_lower.
    destruct (last_char s) as [a|]; [|done]. intros [= <-].
    rewrite isspace_to_lower. by apply Hl.
Qed.

(** X4.  Let the dialogue for the animal settle on [line]
    ([confirmed_name]: the first line with a name in it that the user then
    says yes to).  Whenever [get_new_animal_name] returns it has read exactly
    the lines of that dialogue, and the name it returns is [line], trimmed
    and in lower case; the name is not empty and has no white space at its
    ends, and when the line is ASCII it is ASCII with no upper-case letter;
    the store, the root and the saves are as before. *)
Theorem new_animal_name_normalised (w w' : world) (name line : string)
    (rest : list string) :
  confirmed_name (stdin w) = Some (line, rest) →
  get_new_animal_name w = Ok (name, w') →
  quiet w w' ∧
  stdin w' = rest ∧
  name = lower (strip line) ∧
  name ≠ EmptyString ∧
  strip name = name ∧
  (ascii_text line = true →
   ascii_text name = true ∧
   ∀ i c, String.get i name = Some c → isupper c = false).
Proof.
  intros Hline H.
  pose proof (get_new_animal_name_line _ _ _ H) as (line' & Hline' & ->).
  rewrite Hline in Hline'. injection Hline' as <- ->.
  apply get_new_animal_name_inv in H as (Hq & _ & _ & _ & Hne).
  split; [done|]. split; [done|]. split; [done|]. split; [done|]. split.
  - apply trimmed_strip, trimmed_lower, strip_trimmed.
  - intros Hascii. split; [by apply ascii_text_lower, ascii_text_strip|].
    intros i c. rewrite get_lower.
    destruct (String.get i (strip line)) as [a|]; [|done]. intros [= <-].
    apply isupper_to_lower.
Qed.

Lemma new_animal_name_normalised_witness :
  ∃ w',
    confirmed_name ["  "; " Horse"; "what?"; "no"; " COW  "; "y"; "rest"]
    = Some (" COW  ", ["rest"]) ∧
    get_new_animal_name
      (World cat_dog 2 ["  "; " Horse"; "what?"; "no"; " COW  "; "y"; "rest"] [])
    = Ok ("cow", w') ∧
    ascii_text " COW  " = true ∧
    (quiet (World cat_dog 2 ["  "; " Horse"; "what?"; "no"; " COW  "; "y"; "rest"] [])
       w' ∧
     stdin w' = ["rest"] ∧
     "cow" = lower (strip " COW  ") ∧
     "cow" ≠ EmptyString ∧
     strip "cow" = "cow" ∧
     (ascii_text " COW  " = true →
      ascii_text "cow" = true ∧
      ∀ i c, String.get i "cow" = Some c → isupper c = false)).
Proof.
  eexists. split; [vm_compute; reflexivity|]. split; [vm_compute; reflexivity|].
  split; [reflexivity|].
  apply (new_animal_name_normalised
           (World cat_dog 2 ["  "; " Horse"; "what?"; "no"; " COW  "; "y"; "rest"] [])
           _ "cow" " COW  " ["rest"]);
    vm_compute; reflexivity.
Defined.

(** ** What a lesson touches *)

(** X5.  A lesson at [g] adds two objects to the store and writes to the old
    guess, which keeps its name and gets the new question as parent.  Every
    other object, except the one the parent reference of [g] leads to, is as
    it was; and the lesson itself changes neither the root nor the saves. *)
Theorem lesson_footprint (g nq ng : loc) (w w' : world) :
  add_new_question g w = Ok ((nq, ng), w') →
  root_node w' = root_node w ∧ saves w' = saves w ∧
  length (heap_of w') = 2 + length (heap_of w) ∧
  (∃ pg name, heap_of w !! g = Some (Guess pg name) ∧
              heap_of w' !! g = Some (Guess (Some nq) name)) ∧
  ∀ l n, heap_of w !! l = Some n → l ≠ g →
         parent_at (heap_of w) g ≠ Some (Some l) →
         heap_of w' !! l = Some n.
Proof.
  intros H.
  apply add_new_question_inv in H
    as (pg & name & newname & q & h3 & w3 & mid & Hg & -> & -> & _ & _ & Hrw & Hq & ->).
  change (heap_of (with_heap ?h _)) with h.
  change (root_node (with_heap _ ?w)) with (root_node w).
  change (saves (with_heap _ ?w)) with (saves w).
  pose proof (rewired_length _ _ _ _ _ Hrw) as Hlen3.
  rewrite length_app in Hlen3. cbn [length] in Hlen3.
  assert (Hglt : g < length (heap_of w)) by by eapply lookup_lt_Some.
  split; [apply Hq|]. split; [apply Hq|].
  split; [rewrite !length_insert; lia|]. split.
  - exists pg, name. split; [done|].
    apply list_lookup_insert_eq. rewrite length_insert. lia.
  - intros l n Hl Hne Hpar.
    assert (Hllt : l < length (heap_of w)) by by eapply lookup_lt_Some.
    rewrite !list_lookup_insert_ne by lia.
    rewrite (rewired_other _ _ _ _ _ _ Hrw).
    + by rewrite lookup_app_l.
    + intros ->. apply Hpar. unfold parent_at. by rewrite Hg.
Qed.

Lemma lesson_footprint_witness :
  ∃ w',
    add_new_question 1 (World zoo 2 ["tiger"; "y"; "has it stripes"; "y"] [])
    = Ok ((6, 5), w') ∧
    (root_node w' = 2 ∧ saves w' = [] ∧
     length (heap_of w') = 2 + length zoo ∧
     (∃ pg name, zoo !! 1 = Some (Guess pg name) ∧
                 heap_of w' !! 1 = Some (Guess (Some 6) name)) ∧
     ∀ l n, zoo !! l = Some n → l ≠ 1 →
            parent_at zoo 1 ≠ Some (Some l) →
            heap_of w' !! l = Some n).
Proof.
  eexists. split; [vm_compute; reflexivity|].
  apply (lesson_footprint 1 6 5
           (World zoo 2 ["tiger"; "y"; "has it stripes"; "y"] [])).
  vm_compute; reflexivity.
Defined.

(** X6.  After a lesson the two children of the new question, the new guess
    and the old guess, both have the new question as their parent. *)
Theorem lesson_children_point_back (g nq ng : loc) (w w' : world) :
  parent_known (heap_of w) g = true →
  add_new_question g w = Ok ((nq, ng), w') →
  children_point_back (heap_of w') nq = true ∧
  parent_at (heap_of w') ng = Some (Some nq) ∧
  parent_at (heap_of w') g = Some (Some nq).
Proof.
  intros Hpk H.
  apply add_new_question_nodes in H
    as (pg & name & newname & q & mid & _ & -> & -> & _ & _ & Hnq & Hng & Hg & _);
    [|done].
  unfold children_point_back, parent_at. rewrite Hnq, Hng, Hg. cbn.
  by rewrite !bool_decide_eq_true_2.
Qed.

Lemma lesson_children_point_back_witness :
  ∃ w',
    parent_known zoo 1 = true ∧
    add_new_question 1 (World zoo 2 ["tiger"; "y"; "has it stripes"; "y"] [])
    = Ok ((6, 5), w') ∧
    (children_point_back (heap_of w') 6 = true ∧
     parent_at (heap_of w') 5 = Some (Some 6) ∧
     parent_at (heap_of w') 1 = Some (Some 6)).
Proof.
  eexists. split; [reflexivity|]. split; [vm_compute; reflexivity|].
  apply (lesson_children_point_back 1 6 5
           (World zoo 2 ["tiger"; "y"; "has it stripes"; "y"] []));
    vm_compute; reflexivity.
Defined.

(** ** The first lesson *)

Lemma do_guess_at_root (g : loc) (name : string) (w w1 w' : world) :
  heap_of w !! g = Some (Guess None name) →
  get_yes_or_no ("Is your animal a " +:+ name +:+ "?") w = Ok (false, w1) →
  do_guess g w = Ok (tt, w') →
  ∃ newname q,
    newname ≠ EmptyString ∧
    root_node w' = S (length (heap_of w)) ∧
    heap_of w'
    = <[g := Guess (Some (S (length (heap_of w)))) name]> (heap_of w)
      ++ [Guess (Some (S (length (heap_of w)))) newname;
          Question None q (length (heap_of w)) g].
Proof.
  intros Hg Hno H.
  apply do_guess_inv in H as (pg & name' & yes & w1' & Hg' & Hy & H).
  rewrite Hg in Hg'. injection Hg' as <- <-.
  rewrite Hno in Hy. injection Hy as <- <-.
  destruct H as (nq & ng & w2 & Ha & Hh & _ & Hr & _).
  rewrite bool_decide_eq_true_2 in Hr by done.
  apply get_yes_or_no_inv in Hno as [Hq1 _].
  apply add_new_question_inv in Ha
    as (pg & name' & newname & q & h3 & w3 & mid & Hg1 & -> & ->
        & (line & _ & _ & Hnew) & _ & Hrw & _ & ->).
  rewrite (quiet_heap _ _ Hq1) in Hg1, Hrw, Hr. rewrite Hg in Hg1.
  injection Hg1 as <- <-.
  inversion Hrw; subst h3. clear Hrw.
  change (heap_of (with_heap ?h _)) with h in Hh.
  rewrite (quiet_heap _ _ Hq1) in Hh.
  assert (Hglt : g < length (heap_of w)) by by eapply lookup_lt_Some.
  exists newname, q. split; [done|]. split; [done|].
  rewrite Hh. rewrite (insert_app_r_alt _ _ (length (heap_of w))) by lia.
  rewrite Nat.sub_diag. cbn [insert list_insert].
  by rewrite insert_app_l by lia.
Qed.

(** X7.  The first lesson keeps the invariants of the tree.  When the tree
    is a single guess with a name and no parent and the user says no to it,
    the tree at the new root has no parent at its root, no node twice, every
    child pointing back to its parent and no empty name: it is well formed —
    unless the text of the new question is empty, which is the only way it
    fails. *)
Theorem first_lesson_well_formed (g : loc) (name : string) (w w1 w' : world) :
  heap_of w !! g = Some (Guess None name) →
  name ≠ EmptyString →
  get_yes_or_no ("Is your animal a " +:+ name +:+ "?") w = Ok (false, w1) →
  do_guess g w = Ok (tt, w') →
  ∃ q positive,
    heap_of w' !! root_node w' = Some (Question None q positive g) ∧
    well_formed (heap_of w') (root_node w') = negb (is_empty q).
Proof.
  intros Hg Hname Hno H.
  destruct (do_guess_at_root _ _ _ _ _ Hg Hno H) as (newname & q & Hnew & Hr & Hh).
  assert (Hglt : g < length (heap_of w)) by by eapply lookup_lt_Some.
  set (n := length (heap_of w)) in *.
  set (h0 := <[g := Guess (Some (S n)) name]> (heap_of w)) in *.
  assert (Hlen0 : length h0 = n) by apply length_insert.
  assert (Hq : heap_of w' !! S n = Some (Question None q n g)).
  { rewrite Hh, lookup_app_r by lia.
    by replace (S n - length h0) with 1 by lia. }
  assert (Hn : heap_of w' !! n = Some (Guess (Some (S n)) newname)).
  { rewrite Hh, lookup_app_r by lia.
    by replace (n - length h0) with 0 by lia. }
  assert (Hg' : heap_of w' !! g = Some (Guess (Some (S n)) name)).
  { rewrite Hh, lookup_app_l by lia. by apply list_lookup_insert_eq. }
  assert (Hlen : length (heap_of w') = S (S n)).
  { rewrite Hh, length_app, Hlen0. cbn. lia. }
  exists q, n. rewrite Hr. split; [done|].
  assert (Hpr : parent_at (heap_of w') (S n) = Some None)
    by (unfold parent_at; by rewrite Hq).
  assert (Hpn : parent_at (heap_of w') n = Some (Some (S n)))
    by (unfold parent_at; by rewrite Hn).
  assert (Hpg : parent_at (heap_of w') g = Some (Some (S n)))
    by (unfold parent_at; by rewrite Hg').
  assert (Hnd : NoDup [S n; n; g]).
  { apply NoDup_cons_2; [rewrite !elem_of_cons, elem_of_nil; lia|].
    apply NoDup_cons_2; [rewrite !elem_of_cons, elem_of_nil; lia|].
    apply NoDup_singleton. }
  unfold well_formed. rewrite Hlen. cbn [nodes_below].
  rewrite Hq, Hn, Hg'. cbn [app forallb].
  unfold children_point_back, text_present.
  rewrite Hq, Hn, Hg', Hpr, Hpn, Hpg.
  rewrite (bool_decide_eq_true_2 _ Hnd).
  rewrite !bool_decide_eq_true_2 by done.
  destruct name as [|c name]; [done|]. destruct newname as [|c' newname]; [done|].
  cbn. by destruct (is_empty q).
Qed.

Lemma first_lesson_well_formed_witness :
  ∃ w1 w',
    heap_of (boot None ["n"; "cat"; "y"; "does it meow?"; "y"]) !! 0
    = Some (Guess None "dog") ∧
    "dog" ≠ EmptyString ∧
    get_yes_or_no ("Is your animal a " +:+ "dog" +:+ "?")
      (boot None ["n"; "cat"; "y"; "does it meow?"; "y"]) = Ok (false, w1) ∧
    do_guess 0 (boot None ["n"; "cat"; "y"; "does it meow?"; "y"]) = Ok (tt, w') ∧
    ∃ q positive,
      heap_of w' !! root_node w' = Some (Question None q positive 0) ∧
      well_formed (heap_of w') (root_node w') = negb (is_empty q).
Proof.
  eexists _, _. split; [reflexivity|]. split; [discriminate|].
  split; [vm_compute; reflexivity|]. split; [vm_compute; reflexivity|].
  eapply (first_lesson_well_formed 0 "dog"
            (boot None ["n"; "cat"; "y"; "does it meow?"; "y"]));
    [reflexivity | discriminate | vm_compute; reflexivity | vm_compute; reflexivity].
Defined.

(** ** A lesson is learned *)

(** The last question of a path holds the guess in the slot of the last
    answer. *)
Lemma follow_last (h : heap) (answers : list bool) :
  ∀ (start : loc) (path : list loc) (g p : loc),
    follow h start answers = Some (path, g) →
    last path = Some p →
    ∃ pp t x y d, h !! p = Some (Question pp t x y) ∧
                  last answers = Some d ∧ (if d then x else y) = g.
Proof.
  induction answers as [|b0 answers IH]; intros start path g p H Hlast;
    cbn [follow] in H.
  - destruct (h !! start) as [[? ?|? ? ? ?]|]; [|done|done].
    injection H as <- <-. done.
  - destruct (h !! start) as [[? ?|pp t x y]|] eqn:Hs; [done| |done].
    destruct (follow h (if b0 then x else y) answers) as [[path' g']|] eqn:Hf;
      [|done].
    injection H as <- <-. rewrite last_cons in Hlast.
    destruct (last path') as [p'|] eqn:Hl'.
    + injection Hlast as ->.
      destruct (IH _ _ _ _ Hf Hl') as (pp' & t' & x' & y' & d & Hp & Hd & Hg).
      exists pp', t', x', y', d. split; [done|]. split; [|done].
      rewrite last_cons. by rewrite Hd.
    + injection Hlast as ->. apply last_None in Hl' as ->.
      destruct answers as [|b1 answers]; cbn [follow] in Hf.
      * destruct (h !! (if b0 then x else y)) as [[? ?|? ? ? ?]|];
          [|done|done].
        injection Hf as <-. by exists pp, t, x, y, b0.
      * destruct (h !! (if b0 then x else y)) as [[? ?|? ? ? ?]|];
          [done| |done].
        destruct (follow h _ answers) as [[? ?]|]; [|done]. done.
Qed.

(** What is equal to a guess with a parent is a guess of the same name with
    a parent. *)
Lemma node_eq_true_guess (n : nat) (h : heap) (a b p : loc) (name : string) :
  h !! b = Some (Guess (Some p) name) →
  node_eq (S n) h a b = Ok true →
  ∃ p', h !! a = Some (Guess (Some p') name).
Proof.
  intros Hb. unfold node_eq; fold node_eq. rewrite Hb.
  destruct (h !! a) as [[[p'|] na|? ? ? ?]|]; [| |done|done].
  - destruct (decide (p' = p)) as [->|].
    + intros [= H]. apply bool_decide_eq_true in H as ->. eauto.
    + destruct (node_eq n h p' p) as [[]|]; [|done|done].
      intros [= H]. apply bool_decide_eq_true in H as ->. eauto.
  - done.
Qed.

(** The old objects of the store after a lesson. *)
Lemma add_new_question_frame (g nq ng : loc) (w w' : world) (l : loc) (n : node) :
  add_new_question g w = Ok ((nq, ng), w') →
  heap_of w !! l = Some n → l ≠ g →
  parent_at (heap_of w) g ≠ Some (Some l) →
  heap_of w' !! l = Some n.
Proof.
  intros H Hl Hne Hpar.
  apply add_new_question_inv in H
    as (pg & name & newname & q & h3 & w3 & mid & Hg & -> & -> & _ & _ & Hrw & Hq & ->).
  change (heap_of (with_heap ?h _)) with h.
  assert (Hllt : l < length (heap_of w)) by by eapply lookup_lt_Some.
  rewrite !list_lookup_insert_ne by lia.
  rewrite (rewired_other _ _ _ _ _ _ Hrw).
  - by rewrite lookup_app_l.
  - intros ->. apply Hpar. unfold parent_at. by rewrite Hg.
Qed.

(** The parent [p] of the old guess after the lesson, with the store the
    comparisons are made in. *)
Lemma add_new_question_parent_store (g p nq ng : loc) (name pq : string)
    (pp : option loc) (x y : loc) (w w' : world) :
  heap_of w !! g = Some (Guess (Some p) name) →
  heap_of w !! p = Some (Question pp pq x y) →
  add_new_question g w = Ok ((nq, ng), w') →
  ∃ newname q,
    let h2 := heap_of w ++ [Guess None newname; Question None q ng g] in
    (node_eq recursion_limit h2 y g = Ok true ∧
     heap_of w' !! p = Some (Question pp pq x nq)) ∨
    (node_eq recursion_limit h2 y g = Ok false ∧
     node_eq recursion_limit h2 x g = Ok true ∧
     heap_of w' !! p = Some (Question pp pq nq y)) ∨
    (node_eq recursion_limit h2 y g = Ok false ∧
     node_eq recursion_limit h2 x g = Ok false ∧
     heap_of w' !! p = Some (Question pp pq x y)).
Proof.
  intros Hg Hp H.
  apply add_new_question_inv in H
    as (pg & name' & newname & q & h3 & w3 & mid & Hg' & -> & -> & _ & _ & Hrw & _ & ->).
  rewrite Hg in Hg'. injection Hg' as <- <-.
  exists newname, q. cbn zeta.
  set (h2 := heap_of w ++ [_; _]) in *.
  assert (Hplt : p < length (heap_of w)) by by eapply lookup_lt_Some.
  assert (Hglt : g < length (heap_of w)) by by eapply lookup_lt_Some.
  assert (Hpg : p ≠ g) by (intros ->; congruence).
  assert (Hp3 : ∀ n, h3 !! p = Some n →
            heap_of (with_heap (<[g:=Guess (Some (S (length (heap_of w)))) name]>
              (<[length (heap_of w):=Guess (Some (S (length (heap_of w)))) newname]> h3))
              w3) !! p = Some n).
  { intros n Hn. change (heap_of (with_heap ?h _)) with h.
    by rewrite !list_lookup_insert_ne by lia. }
  assert (Hlen2 : length h2 = 2 + length (heap_of w)).
  { unfold h2. rewrite length_app. cbn. lia. }
  assert (Hp2 : h2 !! p = Some (Question pp pq x y)).
  { unfold h2. by rewrite lookup_app_l. }
  inversion Hrw as [|p0 pp0 a0 Hp0|p0 pp0 q0 x0 y0 Hp0 Hy|p0 pp0 q0 x0 y0 Hp0 Hy Hx
                    |p0 pp0 q0 x0 y0 Hp0 Hy Hx]; subst.
  - congruence.
  - rewrite Hp2 in Hp0. injection Hp0 as <- <- <- <-.
    left. split; [assumption|]. apply Hp3. apply list_lookup_insert_eq. lia.
  - rewrite Hp2 in Hp0. injection Hp0 as <- <- <- <-.
    right. left. split; [assumption|]. split; [assumption|].
    apply Hp3. apply list_lookup_insert_eq. lia.
  - rewrite Hp2 in Hp0. injection Hp0 as <- <- <- <-.
    right. right. split; [assumption|]. split; [assumption|].
    apply Hp3. assumption.
Qed.

(** The parent of the old guess after a lesson that is not hidden by a twin:
    the slot that held the old guess holds the new question. *)
Lemma add_new_question_right_slot (g p nq ng : loc) (name t : string)
    (pp : option loc) (x y : loc) (d : bool) (w w' : world) :
  heap_of w !! g = Some (Guess (Some p) name) →
  heap_of w !! p = Some (Question pp t x y) →
  (if d then x else y) = g →
  (d = true → same_name (heap_of w) y g = false) →
  add_new_question g w = Ok ((nq, ng), w') →
  heap_of w' !! p
  = Some (Question pp t (if d then nq else x) (if d then y else nq)).
Proof.
  intros Hg Hp Hd Htwin H. destruct d; subst g;
    [|by eapply lesson_at_negative_child].
  assert (Hxlt : x < length (heap_of w)) by by eapply lookup_lt_Some.
  destruct (add_new_question_parent_store _ _ _ _ _ _ _ _ _ _ _ Hg Hp H)
    as (newname & q & Hcases). cbn zeta in Hcases.
  assert (Hx2 : (heap_of w ++ [Guess None newname; Question None q ng x]) !! x
                = Some (Guess (Some p) name)) by by rewrite lookup_app_l.
  destruct Hcases as [[Hy _] | [(_ & _ & Hr) | (_ & Hx & _)]].
  - exfalso. unfold recursion_limit in Hy.
    destruct (node_eq_true_guess _ _ _ _ _ _ Hx2 Hy) as [p' Hy2].
    specialize (Htwin eq_refl). unfold same_name in Htwin. rewrite Hg in Htwin.
    destruct (decide (y < length (heap_of w))) as [Hylt|Hyge].
    + rewrite lookup_app_l in Hy2 by done. rewrite Hy2 in Htwin.
      by rewrite bool_decide_eq_true_2 in Htwin.
    + rewrite lookup_app_r in Hy2 by lia.
      by destruct (y - length (heap_of w)) as [|[|k]].
  - exact Hr.
  - exfalso. unfold recursion_limit in Hx.
    rewrite (node_eq_guesses _ _ _ _ _ _ _ Hx2 Hx2) in Hx.
    by rewrite bool_decide_eq_true_2 in Hx.
Qed.

Lemma follow_question (h : heap) (l : loc) (pp : option loc) (t : string)
    (x y : loc) (b : bool) (answers : list bool) :
  h !! l = Some (Question pp t x y) →
  follow h l (b :: answers)
  = match follow h (if b then x else y) answers with
    | Some (path, g) => Some (l :: path, g)
    | None => None
    end.
Proof. intros H. cbn [follow]. by rewrite H. Qed.

(** The path to a guess, in a store in which the last question of the path
    holds a new question in the place of the guess. *)
Lemma follow_graft (h h' : heap) (p g nq ng : loc) (d b : bool)
    (pp pq pn pg pg' : option loc) (t q name name' newname : string) (x y : loc) :
  h !! p = Some (Question pp t x y) →
  (if d then x else y) = g →
  h !! g = Some (Guess pg name) →
  h' !! p = Some (Question pp t (if d then nq else x) (if d then y else nq)) →
  h' !! nq = Some (Question pq q ng g) →
  h' !! ng = Some (Guess pn newname) →
  h' !! g = Some (Guess pg' name') →
  (∀ l n, h !! l = Some n → l ≠ g → l ≠ p → h' !! l = Some n) →
  ∀ (answers : list bool) (start : loc) (path : list loc),
    follow h start answers = Some (path, g) →
    last path = Some p → last answers = Some d →
    follow h' start (answers ++ [b]) = Some (path ++ [nq], if b then ng else g).
Proof.
  intros Hp Hd Hg Hp' Hnq Hng Hg' Hframe.
  assert (Hend : follow h' nq [b] = Some ([nq], if b then ng else g)).
  { cbn [follow]. rewrite Hnq. destruct b; cbn [follow].
    - by rewrite Hng.
    - by rewrite Hg'. }
  induction answers as [|b0 answers IH]; intros start path Hf Hlp Hla;
    [done|].
  cbn [follow] in Hf.
  destruct (h !! start) as [[? ?|ps ts xs ys]|] eqn:Hs; [done| |done].
  destruct (follow h (if b0 then xs else ys) answers) as [[path' g']|] eqn:Hf';
    [|done].
  injection Hf as <- ->.
  destruct answers as [|b1 answers].
  - (* the last question *)
    cbn [follow] in Hf'.
    destruct (h !! (if b0 then xs else ys)) as [[? ?|? ? ? ?]|] eqn:Hc;
      [|done|done].
    injection Hf' as <- Hgc. cbn in Hlp, Hla.
    injection Hlp as ->. injection Hla as ->.
    rewrite Hp in Hs. injection Hs as <- <- <- <-.
    cbn [app]. rewrite (follow_question _ _ _ _ _ _ _ _ Hp').
    assert (Hslot : (if d then if d then nq else x else if d then y else nq) = nq)
      by by destruct d.
    rewrite Hslot. by rewrite Hend.
  - (* a question before the last *)
    assert (Hq : ∃ pc tc xc yc,
               h !! (if b0 then xs else ys) = Some (Question pc tc xc yc)).
    { cbn [follow] in Hf'.
      destruct (h !! (if b0 then xs else ys)) as [[? ?|pc tc xc yc]|];
        [done| |done]. eauto. }
    destruct Hq as (pc & tc & xc & yc & Hc).
    assert (Hpath' : path' ≠ []).
    { cbn [follow] in Hf'. rewrite Hc in Hf'.
      destruct (follow h _ answers) as [[? ?]|]; [|done]. by injection Hf' as <- _. }
    assert (Hlp' : last path' = Some p).
    { rewrite last_cons in Hlp. destruct (last path') eqn:E; [done|].
      by apply last_None in E. }
    assert (Hla' : last (b1 :: answers) = Some d).
    { rewrite last_cons in Hla. destruct (last (b1 :: answers)) eqn:E; [done|].
      by apply last_None in E. }
    specialize (IH _ _ Hf' Hlp' Hla').
    change ((b0 :: b1 :: answers) ++ [b]) with (b0 :: ((b1 :: answers) ++ [b])).
    destruct (decide (start = p)) as [->|Hsp].
    + rewrite Hp in Hs. injection Hs as <- <- <- <-.
      rewrite (follow_question _ _ _ _ _ _ _ _ Hp').
      assert (Hb0 : b0 = negb d).
      { destruct b0, d; try done; cbn in Hd; subst g; congruence. }
      assert (Hslot : (if b0 then if d then nq else x else if d then y else nq)
                      = (if b0 then x else y)).
      { rewrite Hb0. by destruct d. }
      rewrite Hslot. by rewrite IH.
    + assert (Hsg : start ≠ g) by (intros ->; congruence).
      rewrite (follow_question _ _ _ _ _ _ _ _ (Hframe _ _ Hs Hsg Hsp)).
      by rewrite IH.
Qed.

Lemma follow_nil (h : heap) (answers : list bool) (start g : loc) :
  follow h start answers = Some ([], g) → answers = [] ∧ start = g.
Proof.
  destruct answers as [|b answers]; cbn [follow].
  - destruct (h !! start) as [[? ?|? ? ? ?]|]; [|done|done]. by intros [= ->].
  - destruct (h !! start) as [[? ?|? ? ? ?]|]; [done| |done].
    by destruct (follow h _ answers) as [[? ?]|].
Qed.

(** X8.  A lesson is learned.  Let the answers [answers] lead from the root
    along [path] to the guess [g], let the parent reference of [g] be the
    last question of the path (none when [g] is the root), and let [g] not be
    hidden by a twin.  When the user says no to [g] and the lesson returns,
    the same answers followed by a yes lead, in the new tree and from its
    root, along the same path and then the new question to the guess for the
    new animal; followed by a no they lead to the old guess [g]. *)
Theorem lesson_is_learned (answers : list bool) (path : list loc) (g : loc)
    (name : string) (w w1 w' : world) :
  follow (heap_of w) (root_node w) answers = Some (path, g) →
  heap_of w !! g = Some (Guess (last path) name) →
  hidden_by_twin (heap_of w) path answers g = false →
  get_yes_or_no ("Is your animal a " +:+ name +:+ "?") w = Ok (false, w1) →
  do_guess g w = Ok (tt, w') →
  ∃ nq ng newname,
    heap_of w' !! ng = Some (Guess (Some nq) newname) ∧
    follow (heap_of w') (root_node w') (answers ++ [true])
    = Some (path ++ [nq], ng) ∧
    follow (heap_of w') (root_node w') (answers ++ [false])
    = Some (path ++ [nq], g).
Proof.
  intros Hf Hg Htwin Hno H.
  apply do_guess_inv in H as (pg & name' & yes & w1' & Hg' & Hy & H).
  rewrite Hg in Hg'. injection Hg' as <- <-.
  rewrite Hno in Hy. injection Hy as <- <-.
  destruct H as (nq & ng & w2 & Ha & Hh & _ & Hr & _).
  apply get_yes_or_no_inv in Hno as [Hq1 _].
  rewrite <- (quiet_heap _ _ Hq1) in Hf, Hg, Htwin.
  set (h := heap_of w1) in *. rewrite Hh.
  assert (Hglt : g < length h) by by eapply lookup_lt_Some.
  assert (Hpk : parent_known h g = true).
  { unfold parent_known. rewrite Hg. cbn [node_parent].
    destruct (last path) as [p|] eqn:Hlast; [|done].
    destruct (follow_last _ _ _ _ _ _ Hf Hlast) as (pp & t & x & y & d & Hp & _).
    apply bool_decide_eq_true_2. by eapply lookup_lt_Some. }
  destruct (add_new_question_nodes _ _ _ _ _ Hpk Ha)
    as (pg & name' & newname & q & mid & Hg' & Hng_eq & Hnq_eq & _ & _
        & Hnq & Hng & Hg2 & _).
  fold h in Hg'. rewrite Hg in Hg'. injection Hg' as <- <-.
  exists nq, ng, newname. split; [done|].
  destruct (last path) as [p|] eqn:Hlast.
  - (* the guess is below a question *)
    rewrite bool_decide_eq_false_2 in Hr by done. rewrite Hr.
    destruct (follow_last _ _ _ _ _ _ Hf Hlast)
      as (pp & t & x & y & d & Hp & Hd & Hslot).
    assert (Htw : d = true → same_name h y g = false).
    { intros ->. unfold hidden_by_twin in Htwin.
      by rewrite Hlast, Hd, Hp in Htwin. }
    pose proof (add_new_question_right_slot _ _ _ _ _ _ _ _ _ _ _ _
                  Hg Hp Hslot Htw Ha) as Hp'.
    assert (Hframe : ∀ l n, h !! l = Some n → l ≠ g → l ≠ p →
                            heap_of w2 !! l = Some n).
    { intros l n Hl Hlg Hlp.
      apply (add_new_question_frame _ _ _ _ _ _ _ Ha Hl Hlg).
      unfold parent_at. fold h. rewrite Hg. cbn. congruence. }
    rewrite <- (quiet_root _ _ Hq1).
    rewrite <- (quiet_root _ _ Hq1) in Hf.
    split.
    + apply (follow_graft h (heap_of w2) p g nq ng d true pp None (Some nq)
               (Some p) (Some nq) t q name name newname x y); done.
    + apply (follow_graft h (heap_of w2) p g nq ng d false pp None (Some nq)
               (Some p) (Some nq) t q name name newname x y); done.
  - (* the guess is the root *)
    rewrite bool_decide_eq_true_2 in Hr by done. rewrite Hr.
    apply last_None in Hlast. subst path.
    apply follow_nil in Hf as [-> _]. cbn [app follow].
    rewrite Hnq. cbn [follow]. by rewrite Hng, Hg2.
Qed.

Lemma lesson_is_learned_witness :
  ∃ w1 w',
    follow zoo 2 [true; false] = Some ([2; 4], 1) ∧
    zoo !! 1 = Some (Guess (last [2; 4]) "cat") ∧
    hidden_by_twin zoo [2; 4] [true; false] 1 = false ∧
    get_yes_or_no ("Is your animal a " +:+ "cat" +:+ "?")
      (World zoo 2 ["no"; "tiger"; "y"; "has it stripes"; "y"] [])
    = Ok (false, w1) ∧
    do_guess 1 (World zoo 2 ["no"; "tiger"; "y"; "has it stripes"; "y"] [])
    = Ok (tt, w') ∧
    ∃ nq ng newname,
      heap_of w' !! ng = Some (Guess (Some nq) newname) ∧
      follow (heap_of w') (root_node w') ([true; false] ++ [true])
      = Some ([2; 4] ++ [nq], ng) ∧
      follow (heap_of w') (root_node w') ([true; false] ++ [false])
      = Some ([2; 4] ++ [nq], 1).
Proof.
  eexists _, _. split; [reflexivity|]. split; [reflexivity|].
  split; [reflexivity|]. split; [vm_compute; reflexivity|].
  split; [vm_compute; reflexivity|].
  eapply (lesson_is_learned [true; false] [2; 4] 1 "cat"
            (World zoo 2 ["no"; "tiger"; "y"; "has it stripes"; "y"] []));
    [reflexivity | reflexivity | reflexivity
     | vm_compute; reflexivity | vm_compute; reflexivity].
Defined.

(** ** The listing *)

Lemma print_ok (t : string) (h : heap) (r : loc) (ls : list string)
    (tr : list event) :
  print t (World h r ls tr) = Ok (tt, World h r ls (tr ++ [Print (t +:+ newline)])).
Proof. reflexivity. Qed.

Lemma dump_nodes_rec_lists (fuel : nat) (h : heap) (r : loc) (ls : list string) :
  ∀ (fuel' : nat) (node : loc) (nodes : list loc) (prefix : string) (depth : nat)
    (tr : list event),
    nodes_below fuel h node = Some nodes →
    fuel ≤ fuel' →
    ∃ lines,
      dump_nodes_rec fuel' node prefix depth (World h r ls tr)
      = Ok (tt, World h r ls (tr ++ (Print <$> lines))) ∧
      Forall2 (λ l line, ∃ indent, line = (indent +:+ node_label h l) +:+ newline)
        nodes lines ∧
      head lines
      = Some (((spaces (depth * 2) +:+ prefix) +:+ node_label h node) +:+ newline).
Proof.
  induction fuel as [|fuel IH]; intros fuel' node nodes prefix depth tr Hn Hle;
    [discriminate|].
  destruct fuel' as [|fuel']; [lia|].
  cbn [nodes_below] in Hn. cbn [dump_nodes_rec].
  unfold mbind at 1. unfold M_bind, get_heap. cbn [heap_of].
  unfold node_label.
  destruct (h !! node) as [[pg name|p text x y]|] eqn:Hnode; [| |done].
  - injection Hn as <-. rewrite print_ok. eexists [_].
    split; [reflexivity|]. split; [|reflexivity].
    constructor; [|constructor]. eexists. unfold node_label. by rewrite Hnode.
  - destruct (nodes_below fuel h x) as [xs|] eqn:Hx; [|done].
    destruct (nodes_below fuel h y) as [ys|] eqn:Hy; [|done].
    injection Hn as <-.
    rewrite (bind_eq _ _ _ _ _ (print_ok _ _ _ _ _)).
    destruct (IH fuel' x xs "Positive" (depth + 1)
                (tr ++ [Print (((spaces (depth * 2) +:+ prefix)
                                +:+ "Question(question=" +:+ text +:+ ")")
                               +:+ newline)]) Hx ltac:(lia))
      as (lx & Hdx & Hfx & _).
    rewrite (bind_eq _ _ _ _ _ Hdx).
    destruct (IH fuel' y ys "Negative" (depth + 1)
                ((tr ++ [Print (((spaces (depth * 2) +:+ prefix)
                                 +:+ "Question(question=" +:+ text +:+ ")")
                                +:+ newline)]) ++ (Print <$> lx)) Hy ltac:(lia))
      as (ly & Hdy & Hfy & _).
    rewrite Hdy.
    exists ((((spaces (depth * 2) +:+ prefix)
              +:+ "Question(question=" +:+ text +:+ ")") +:+ newline)
            :: lx ++ ly).
    split; [|split; [|reflexivity]].
    + rewrite fmap_cons, fmap_app. by rewrite <- !app_assoc.
    + constructor; [|by apply Forall2_app].
      eexists. unfold node_label. by rewrite Hnode.
Qed.

(** X10.  The listing of a tree.  For a finite tree no deeper than the
    interpreter allows, [dump_nodes] returns, changes nothing, and prints one
    line for every node of the tree, in the order in which the nodes come when
    a question is followed by its positive subtree and then its negative
    subtree; the line of a node ends in its kind and its text, and the first
    line begins with two blanks for every level of [depth] and the prefix. *)
Theorem dump_nodes_lists_tree (fuel : nat) (h : heap) (r node : loc)
    (nodes : list loc) (prefix : string) (depth : nat) (ls : list string)
    (tr : list event) :
  nodes_below fuel h node = Some nodes →
  fuel ≤ recursion_limit →
  ∃ lines,
    dump_nodes node prefix depth (World h r ls tr)
    = Ok (tt, World h r ls (tr ++ (Print <$> lines))) ∧
    Forall2 (λ l line, ∃ indent, line = (indent +:+ node_label h l) +:+ newline)
      nodes lines ∧
    head lines
    = Some (((spaces (depth * 2) +:+ prefix) +:+ node_label h node) +:+ newline).
Proof. intros Hn Hle. by eapply dump_nodes_rec_lists. Qed.

Lemma dump_nodes_lists_tree_witness :
  nodes_below 3 zoo 2 = Some [2; 4; 3; 1; 0] ∧
  3 ≤ recursion_limit ∧
  ∃ lines,
    dump_nodes 2 EmptyString 0 (World zoo 2 [] [])
    = Ok (tt, World zoo 2 [] ([] ++ (Print <$> lines))) ∧
    Forall2 (λ l line, ∃ indent, line = (indent +:+ node_label zoo l) +:+ newline)
      [2; 4; 3; 1; 0] lines ∧
    head lines
    = Some (((spaces (0 * 2) +:+ EmptyString) +:+ node_label zoo 2) +:+ newline).
Proof.
  split; [reflexivity|]. split; [unfold recursion_limit; lia|].
  apply (dump_nodes_lists_tree 3 zoo 2 2 [2; 4; 3; 1; 0] EmptyString 0 [] []);
    [reflexivity | unfold recursion_limit; lia].
Defined.

(** ** The end of the input during a round *)

Lemma bind_raise {A B : Type} (m : M A) (f : A → M B) (w : world) (e : failure) :
  m w = Raise e → (m ≫= f) w = Raise e.
Proof. unfold mbind, M_bind. by intros ->. Qed.

Lemma do_question_end_of_input (q : loc) (p : option loc) (text : string)
    (x y : loc) (h : heap) (r : loc) (tr : list event) :
  h !! q = Some (Question p text x y) →
  do_question q (World h r [] tr) = Raise EOFError.
Proof.
  intros Hq. unfold do_question.
  rewrite (bind_eq _ _ _ _ _ (load_ok q (World h r [] tr) _ Hq)).
  by apply bind_raise.
Qed.

(** X11.  When the lines of the input read as answers and lead down the
    tree but end at a question, before a guess is reached, the round ends in
    [EOFError]. *)
Theorem play_end_of_input (h : heap) (r node : loc) (lines : list string)
    (tr : list event) (answers more : list bool) (yes : bool)
    (path : list loc) (g : loc) :
  reads_as <$> lines = Some <$> answers →
  follow h node (answers ++ yes :: more) = Some (path, g) →
  play node (World h r lines tr) = Raise EOFError.
Proof.
  intros Hlines Hfollow. apply reads_as_Forall2 in Hlines.
  unfold play, with_fuel. cbn [stdin].
  assert (H : ∀ fuel, length lines < fuel →
            play_rec fuel node (World h r lines tr) = Raise EOFError);
    [|apply H; lia].
  revert node lines tr path Hlines Hfollow.
  induction answers as [|b answers IH];
    intros node lines tr path Hlines Hfollow fuel Hfuel.
  - apply Forall2_nil_inv_r in Hlines as ->.
    destruct fuel as [|fuel]; [cbn in Hfuel; lia|].
    cbn [app follow] in Hfollow. cbn [play_rec].
    unfold mbind at 1. unfold M_bind, get_heap. cbn [heap_of].
    destruct (h !! node) as [[pg name|p text x y]|] eqn:Hnode;
      [discriminate Hfollow| |discriminate Hfollow].
    apply bind_raise. by eapply do_question_end_of_input.
  - apply Forall2_cons_inv_r in Hlines as (line & lines' & Hline & Hlines & ->).
    destruct fuel as [|fuel]; [cbn in Hfuel; lia|].
    cbn [app follow] in Hfollow. cbn [play_rec].
    unfold mbind at 1. unfold M_bind, get_heap. cbn [heap_of].
    destruct (h !! node) as [[pg name|p text x y]|] eqn:Hnode;
      [discriminate Hfollow| |discriminate Hfollow].
    destruct (follow h (if b then x else y) (answers ++ yes :: more))
      as [[path' g']|] eqn:Hf; [|discriminate Hfollow].
    injection Hfollow as <- ->.
    rewrite (bind_eq _ _ _ _ _ (do_question_answer _ _ _ _ _ _ _ _ r _ tr Hnode Hline)).
    destruct b; apply (IH _ lines' _ path' Hlines Hf fuel); cbn in Hfuel; lia.
Qed.

Lemma play_end_of_input_witness :
  reads_as <$> ["y"] = Some <$> [true] ∧
  follow zoo 2 ([true] ++ false :: []) = Some ([2; 4], 1) ∧
  play 2 (World zoo 2 ["y"] []) = Raise EOFError.
Proof.
  split; [reflexivity|]. split; [reflexivity|].
  apply (play_end_of_input zoo 2 2 ["y"] [] [true] [] false [2; 4] 1);
    reflexivity.
Defined.

(** ** A lesson that goes through *)

Lemma print_end_ok (t e : string) (h : heap) (r : loc) (ls : list string)
    (tr : list event) :
  print_end t e (World h r ls tr) = Ok (tt, World h r ls (tr ++ [Print (t +:+ e)])).
Proof. reflexivity. Qed.

Lemma print_colored_ok (t c : string) (h : heap) (r : loc) (ls : list string)
    (tr : list event) :
  print_colored t c (World h r ls tr)
  = Ok (tt, World h r ls (tr ++ [PrintColored t c])).
Proof. reflexivity. Qed.

Lemma input_ok (line : string) (h : heap) (r : loc) (ls : list string)
    (tr : list event) :
  input (World h r (line :: ls) tr) = Ok (line, World h r ls tr).
Proof. reflexivity. Qed.

Lemma alloc_ok (n : node) (h : heap) (r : loc) (ls : list string)
    (tr : list event) :
  alloc n (World h r ls tr) = Ok (length h, World (h ++ [n]) r ls tr).
Proof. reflexivity. Qed.

Lemma set_parent_ok (l : loc) (p : option loc) (n : node) (h : heap) (r : loc)
    (ls : list string) (tr : list event) :
  h !! l = Some n →
  set_parent l p (World h r ls tr)
  = Ok (tt, World (<[l := with_parent p n]> h) r ls tr).
Proof.
  intros Hl. unfold set_parent.
  by rewrite (bind_eq _ _ _ _ _ (load_ok l (World h r ls tr) _ Hl)).
Qed.

Lemma get_new_animal_name_first (line yes : string) (h : heap) (r : loc)
    (rest : list string) (tr : list event) :
  is_empty (lower (strip line)) = false →
  reads_as yes = Some true →
  ∃ tr', get_new_animal_name (World h r (line :: yes :: rest) tr)
         = Ok (lower (strip line), World h r rest tr').
Proof.
  intros He Hy. unfold get_new_animal_name, with_fuel. cbn [stdin length].
  generalize (S (length rest)). intros fuel. cbn [get_new_animal_name_loop].
  rewrite (bind_eq _ _ _ _ _ (print_end_ok _ _ _ _ _ _)).
  rewrite (bind_eq _ _ _ _ _ (input_ok _ _ _ _ _)).
  rewrite He.
  rewrite (bind_eq _ _ _ _ _ (get_yes_or_no_answer _ _ _ _ _ _ _ Hy)).
  by eexists.
Qed.

Lemma get_question_first (old new line yes : string) (h : heap) (r : loc)
    (rest : list string) (tr : list event) :
  is_empty (strip line) = false →
  reads_as yes = Some true →
  ∃ tr', get_question old new (World h r (line :: yes :: rest) tr)
         = Ok (question_text line, World h r rest tr').
Proof.
  intros He Hy. unfold get_question.
  rewrite (bind_eq _ _ _ _ _ (print_ok _ _ _ _ _)).
  rewrite (bind_eq _ _ _ _ _ (print_ok _ _ _ _ _)).
  unfold with_fuel. cbn [stdin length].
  generalize (S (length rest)). intros fuel. cbn [get_question_loop].
  rewrite (bind_eq _ _ _ _ _ (print_end_ok _ _ _ _ _ _)).
  rewrite (bind_eq _ _ _ _ _ (input_ok _ _ _ _ _)).
  rewrite He.
  rewrite (bind_eq _ _ _ _ _ (print_ok _ _ _ _ _)).
  rewrite (bind_eq _ _ _ _ _ (print_ok _ _ _ _ _)).
  rewrite (bind_eq _ _ _ _ _ (get_yes_or_no_answer _ _ _ _ _ _ _ Hy)).
  by eexists.
Qed.

(** A child whose parent reference is the parent of a guess can be compared
    with the guess. *)
Lemma node_eq_child_guess (n : nat) (h : heap) (c g p : loc) (name : string) :
  parent_at h c = Some (Some p) →
  h !! g = Some (Guess (Some p) name) →
  ∃ b, node_eq (S n) h c g = Ok b.
Proof.
  unfold parent_at. intros Hc Hg.
  destruct (h !! c) as [[pc other|pc t x y]|] eqn:Hcl; [| |done].
  - injection Hc as ->. eexists. by eapply node_eq_guesses.
  - eexists. by eapply node_eq_question_guess.
Qed.

(** Lines 155-160 of [add_new_question] go through when the comparisons
    do. *)
Lemma rewire_ok (g nq : loc) (old_parent : option loc) (h : heap) (r : loc)
    (ls : list string) (tr : list event) :
  (∀ p, old_parent = Some p → is_Some (h !! p)) →
  (∀ p pp t x y, old_parent = Some p → h !! p = Some (Question pp t x y) →
     (∃ b, node_eq recursion_limit h y g = Ok b) ∧
     (∃ b, node_eq recursion_limit h x g = Ok b)) →
  ∃ h', match old_parent with
        | Some parent =>
            p ← load parent;
            match p with
            | Question _ _ parent_positive parent_negative =>
                is_negative ← py_eq parent_negative g;
                if (is_negative : bool) then set_negative parent nq
                else
                  is_positive ← py_eq parent_positive g;
                  if (is_positive : bool) then set_positive parent nq
                  else mret tt
            | Guess _ _ => mret tt
            end
        | None => mret tt
        end (World h r ls tr) = Ok (tt, World h' r ls tr) ∧
        rewired h g nq old_parent h'.
Proof.
  intros Hin Hcmp. destruct old_parent as [p|].
  2:{ exists h. split; [reflexivity|constructor]. }
  destruct (Hin p eq_refl) as [n Hp].
  rewrite (bind_eq _ _ _ _ _ (load_ok p (World h r ls tr) _ Hp)).
  destruct n as [pp a|pp t x y].
  { exists h. split; [reflexivity|]. exact (rewired_not_question _ _ _ _ _ _ Hp). }
  destruct (Hcmp p pp t x y eq_refl Hp) as [[by_ Hy] [bx Hx]].
  assert (Hpy : ∀ a b, node_eq recursion_limit h a g = Ok b →
                       py_eq a g (World h r ls tr) = Ok (b, World h r ls tr)).
  { intros a b H. unfold py_eq. cbn [heap_of]. by rewrite H. }
  rewrite (bind_eq _ _ _ _ _ (Hpy _ _ Hy)). destruct by_.
  { exists (<[p := Question pp t x nq]> h). split.
    - unfold set_negative.
      by rewrite (bind_eq _ _ _ _ _ (load_ok p (World h r ls tr) _ Hp)).
    - exact (rewired_negative _ _ _ _ _ _ _ _ Hp Hy). }
  rewrite (bind_eq _ _ _ _ _ (Hpy _ _ Hx)). destruct bx.
  { exists (<[p := Question pp t nq y]> h). split.
    - unfold set_positive.
      by rewrite (bind_eq _ _ _ _ _ (load_ok p (World h r ls tr) _ Hp)).
    - exact (rewired_positive _ _ _ _ _ _ _ _ Hp Hy Hx). }
  exists h. split; [reflexivity|].
  exact (rewired_neither _ _ _ _ _ _ _ _ Hp Hy Hx).
Qed.

(** X9.  A lesson that goes through.  Let [g] be a guess whose parent, when
    it has one, is in the store and is the parent of its two children.  When
    the user gives a name that is not blank, says yes, gives a question that
    is not blank and says yes, the lesson returns after exactly these four
    lines: the new guess holds the name, trimmed and in lower case, and the
    new question holds the text made of the question, the new guess as its
    positive child and [g] as its negative child. *)
Theorem lesson_goes_through (g : loc) (pg : option loc)
    (name name_line yes1 question_line yes2 : string) (h : heap) (r : loc)
    (rest : list string) (tr : list event) :
  h !! g = Some (Guess pg name) →
  parent_consistent h g = true →
  is_empty (lower (strip name_line)) = false →
  reads_as yes1 = Some true →
  is_empty (strip question_line) = false →
  reads_as yes2 = Some true →
  ∃ w',
    add_new_question g
      (World h r (name_line :: yes1 :: question_line :: yes2 :: rest) tr)
    = Ok ((S (length h), length h), w') ∧
    stdin w' = rest ∧
    heap_of w' !! length h
    = Some (Guess (Some (S (length h))) (lower (strip name_line))) ∧
    heap_of w' !! S (length h)
    = Some (Question None (question_text question_line) (length h) g).
Proof.
  intros Hg Hpc Hname Hy1 Hquestion Hy2.
  assert (Hglt : g < length h) by by eapply lookup_lt_Some.
  unfold add_new_question.
  assert (Hgn : get_animal_name g
                  (World h r (name_line :: yes1 :: question_line :: yes2 :: rest) tr)
                = Ok (name, World h r
                        (name_line :: yes1 :: question_line :: yes2 :: rest) tr)).
  { unfold get_animal_name.
    by rewrite (bind_eq _ _ _ _ _ (load_ok g (World h r _ tr) _ Hg)). }
  rewrite (bind_eq _ _ _ _ _ Hgn).
  rewrite (bind_eq _ _ _ _ _ (print_ok _ _ _ _ _)).
  rewrite (bind_eq _ _ _ _ _ (print_colored_ok _ _ _ _ _ _)).
  rewrite (bind_eq _ _ _ _ _ (print_ok _ _ _ _ _)).
  destruct (get_new_animal_name_first name_line yes1 h r
              (question_line :: yes2 :: rest)
              (((tr ++ [Print (EmptyString +:+ newline)])
                ++ [PrintColored ("Ok, so it's not a " +:+ name +:+ ". I give up.")
                      "red"])
               ++ [Print (EmptyString +:+ newline)]) Hname Hy1) as [tr1 Hn].
  rewrite (bind_eq _ _ _ _ _ Hn).
  destruct (get_question_first name (lower (strip name_line)) question_line yes2
              h r rest tr1 Hquestion Hy2) as [tr2 Hq].
  rewrite (bind_eq _ _ _ _ _ Hq).
  unfold new_Guess, new_Question.
  rewrite (bind_eq _ _ _ _ _ (alloc_ok _ _ _ _ _)).
  rewrite (bind_eq _ _ _ _ _ (alloc_ok _ _ _ _ _)).
  rewrite <- app_assoc. cbn [app].
  assert (Hnq : length (h ++ [Guess None (lower (strip name_line))])
                = S (length h)) by (rewrite length_app; cbn; lia).
  rewrite Hnq.
  set (h2 := h ++ [Guess None (lower (strip name_line));
                   Question None (question_text question_line) (length h) g]).
  assert (Hold : ∀ l n, h !! l = Some n → h2 !! l = Some n).
  { intros l n Hl. unfold h2. rewrite lookup_app_l; [done|].
    by eapply lookup_lt_Some. }
  assert (Hgp : get_parent g (World h2 r rest tr2) = Ok (pg, World h2 r rest tr2)).
  { unfold get_parent.
    by rewrite (bind_eq _ _ _ _ _ (load_ok g (World h2 r rest tr2) _ (Hold _ _ Hg))). }
  rewrite (bind_eq _ _ _ _ _ Hgp).
  unfold parent_consistent in Hpc. rewrite Hg in Hpc. cbn [node_parent] in Hpc.
  destruct (rewire_ok g (S (length h)) pg h2 r rest tr2) as (h3 & Hrw & Hrewired).
  { intros p ->. apply andb_prop in Hpc as [Hp _].
    apply bool_decide_eq_true in Hp. apply lookup_lt_is_Some. unfold h2.
    rewrite length_app. cbn. lia. }
  { intros p pp t x y -> Hp. apply andb_prop in Hpc as [Hplt Hcb].
    apply bool_decide_eq_true in Hplt.
    assert (Hp0 : h !! p = Some (Question pp t x y)).
    { unfold h2 in Hp. by rewrite lookup_app_l in Hp. }
    unfold children_point_back in Hcb. rewrite Hp0 in Hcb.
    apply andb_prop in Hcb as [Hx Hy].
    apply bool_decide_eq_true in Hx, Hy.
    assert (Hlift : ∀ c, parent_at h c = Some (Some p) →
                         parent_at h2 c = Some (Some p)).
    { unfold parent_at. intros c Hc.
      destruct (h !! c) as [nc|] eqn:Hcl; [|done]. by rewrite (Hold _ _ Hcl). }
    unfold recursion_limit. split.
    - exact (node_eq_child_guess _ _ _ _ _ _ (Hlift _ Hy) (Hold _ _ Hg)).
    - exact (node_eq_child_guess _ _ _ _ _ _ (Hlift _ Hx) (Hold _ _ Hg)). }
  rewrite (bind_eq _ _ _ _ _ Hrw).
  assert (Hng3 : h3 !! length h = Some (Guess None (lower (strip name_line)))).
  { eapply rewired_guess; [exact Hrewired|]. unfold h2.
    rewrite lookup_app_r by lia. by rewrite Nat.sub_diag. }
  rewrite (bind_eq _ _ _ _ _ (set_parent_ok _ _ _ _ _ _ _ Hng3)).
  assert (Hg3 : <[length h := with_parent (Some (S (length h)))
                                (Guess None (lower (strip name_line)))]> h3 !! g
                = Some (Guess pg name)).
  { rewrite list_lookup_insert_ne by lia.
    eapply rewired_guess; [exact Hrewired|]. by apply Hold. }
  rewrite (bind_eq _ _ _ _ _ (set_parent_ok _ _ _ _ _ _ _ Hg3)).
  eexists. split; [reflexivity|]. cbn [stdin heap_of with_parent].
  pose proof (rewired_length _ _ _ _ _ Hrewired) as Hlen3.
  assert (Hlen2 : length h2 = 2 + length h).
  { unfold h2. rewrite length_app. cbn. lia. }
  split; [done|]. split.
  - rewrite list_lookup_insert_ne by lia. apply list_lookup_insert_eq. lia.
  - rewrite !list_lookup_insert_ne by lia.
    rewrite (rewired_other _ _ _ _ _ _ Hrewired).
    + unfold h2. rewrite lookup_app_r by lia.
      by replace (S (length h) - length h) with 1 by lia.
    + destruct pg as [p|]; [|done]. intros [= ->].
      apply andb_prop in Hpc as [Hp _]. apply bool_decide_eq_true in Hp. lia.
Qed.

Lemma lesson_goes_through_witness :
  zoo !! 1 = Some (Guess (Some 4) "cat") ∧
  parent_consistent zoo 1 = true ∧
  is_empty (lower (strip " Tiger ")) = false ∧
  reads_as "y" = Some true ∧
  is_empty (strip "has it stripes?") = false ∧
  reads_as "YES" = Some true ∧
  ∃ w',
    add_new_question 1
      (World zoo 2 (" Tiger " :: "y" :: "has it stripes?" :: "YES" :: ["more"]) [])
    = Ok ((S (length zoo), length zoo), w') ∧
    stdin w' = ["more"] ∧
    heap_of w' !! length zoo
    = Some (Guess (Some (S (length zoo))) (lower (strip " Tiger "))) ∧
    heap_of w' !! S (length zoo)
    = Some (Question None (question_text "has it stripes?") (length zoo) 1).
Proof.
  split; [reflexivity|]. split; [reflexivity|]. split; [reflexivity|].
  split; [reflexivity|]. split; [reflexivity|]. split; [reflexivity|].
  apply (lesson_goes_through 1 (Some 4) "cat" " Tiger " "y" "has it stripes?" "YES"
           zoo 2 ["more"] []); reflexivity.
Defined.
